(** * Replate: orchestration of the concept stores and the expiration sweep

    A shallow embedding of the synchronizations in [server/routes.ts]
    (creation saga, cascade deletion, offer acceptance, claiming, editing,
    the average rating), of the cron sweep in [api/index.ts] and of the
    validation of the creation forms.  The routes are written in a small
    state-and-exception monad over a record holding the collections of the
    concept stores; [try]/[catch] is a combinator of that monad. *)

From stdpp Require Import base numbers strings list gmap fin_maps.

Open Scope string_scope.
Open Scope Z_scope.

(** ** Documents *)

(** A MongoDB [ObjectId].  Documents are stored under their [_id]. *)
Abbreviation ObjectId := nat.

(** Instants are milliseconds since the epoch, as [Date.getTime()] gives
    them; a date string paired with the constant time 00:00 the routes pass
    is one such instant. *)
Abbreviation Instant := Z.

(** Modelled from the spec: the documents the stores keep (data model),
    with the fields the routes pass in and read back.  Quantities are
    integers. *)
Record ListingDoc := mkListing {
  l_author : ObjectId;
  l_name : string;
  l_meetup_location : string;
  l_image : string;
  l_quantity : Z;
  l_description : string;
  l_tags : list string;
  l_hidden : bool
}.

Record RequestDoc := mkRequest {
  r_requester : ObjectId;
  r_name : string;
  r_quantity : Z;
  r_image : option string;
  r_description : option string;
  r_hidden : bool
}.

Record ExpireDoc := mkExpire {
  e_item : ObjectId;
  e_expireAt : Instant
}.

Inductive OfferState := OfferActive | OfferAccepted | OfferRemoved.

Record OfferDoc := mkOffer {
  o_offerer : ObjectId;
  o_item : ObjectId;
  o_location : string;
  o_image : option string;
  o_message : option string;
  o_state : OfferState
}.

Record ClaimDoc := mkClaim {
  c_claimer : ObjectId;
  c_quantity : Z;
  c_listing : ObjectId
}.

#[global] Instance OfferState_eq_dec : EqDecision OfferState.
Proof. solve_decision. Defined.
#[global] Instance ListingDoc_eq_dec : EqDecision ListingDoc.
Proof. solve_decision. Defined.
#[global] Instance RequestDoc_eq_dec : EqDecision RequestDoc.
Proof. solve_decision. Defined.
#[global] Instance ExpireDoc_eq_dec : EqDecision ExpireDoc.
Proof. solve_decision. Defined.
#[global] Instance OfferDoc_eq_dec : EqDecision OfferDoc.
Proof. solve_decision. Defined.
#[global] Instance ClaimDoc_eq_dec : EqDecision ClaimDoc.
Proof. solve_decision. Defined.

Definition hide_listing (l : ListingDoc) : ListingDoc :=
  mkListing (l_author l) (l_name l) (l_meetup_location l) (l_image l)
            (l_quantity l) (l_description l) (l_tags l) true.

Definition hide_request (r : RequestDoc) : RequestDoc :=
  mkRequest (r_requester r) (r_name r) (r_quantity r) (r_image r)
            (r_description r) true.

Definition accept_offer (o : OfferDoc) : OfferDoc :=
  mkOffer (o_offerer o) (o_item o) (o_location o) (o_image o) (o_message o)
          OfferAccepted.

(** ** The collections *)

Record World := mkWorld {
  listings : gmap nat ListingDoc;
  requests : gmap nat RequestDoc;
  listing_expirations : gmap nat ExpireDoc;
  request_expirations : gmap nat ExpireDoc;
  offers : gmap nat OfferDoc;
  claims : gmap nat ClaimDoc;
  tagged : list (ObjectId * string);
  next_oid : ObjectId;
  clock : Instant
}.

Definition empty_world (now : Instant) : World :=
  mkWorld ∅ ∅ ∅ ∅ ∅ ∅ [] 0%nat now.

Definition with_listings (f : gmap nat ListingDoc → gmap nat ListingDoc) (w : World) : World :=
  mkWorld (f (listings w)) (requests w) (listing_expirations w)
          (request_expirations w) (offers w) (claims w) (tagged w)
          (next_oid w) (clock w).

Definition with_requests (f : gmap nat RequestDoc → gmap nat RequestDoc) (w : World) : World :=
  mkWorld (listings w) (f (requests w)) (listing_expirations w)
          (request_expirations w) (offers w) (claims w) (tagged w)
          (next_oid w) (clock w).

Definition with_listing_expirations (f : gmap nat ExpireDoc → gmap nat ExpireDoc) (w : World) : World :=
  mkWorld (listings w) (requests w) (f (listing_expirations w))
          (request_expirations w) (offers w) (claims w) (tagged w)
          (next_oid w) (clock w).

Definition with_request_expirations (f : gmap nat ExpireDoc → gmap nat ExpireDoc) (w : World) : World :=
  mkWorld (listings w) (requests w) (listing_expirations w)
          (f (request_expirations w)) (offers w) (claims w) (tagged w)
          (next_oid w) (clock w).

Definition with_offers (f : gmap nat OfferDoc → gmap nat OfferDoc) (w : World) : World :=
  mkWorld (listings w) (requests w) (listing_expirations w)
          (request_expirations w) (f (offers w)) (claims w) (tagged w)
          (next_oid w) (clock w).

Definition with_claims (f : gmap nat ClaimDoc → gmap nat ClaimDoc) (w : World) : World :=
  mkWorld (listings w) (requests w) (listing_expirations w)
          (request_expirations w) (offers w) (f (claims w)) (tagged w)
          (next_oid w) (clock w).

Definition with_tagged (f : list (ObjectId * string) → list (ObjectId * string)) (w : World) : World :=
  mkWorld (listings w) (requests w) (listing_expirations w)
          (request_expirations w) (offers w) (claims w) (f (tagged w))
          (next_oid w) (clock w).

Definition bump_oid (w : World) : World :=
  mkWorld (listings w) (requests w) (listing_expirations w)
          (request_expirations w) (offers w) (claims w) (tagged w)
          (S (next_oid w)) (clock w).

(** ** Store calls, failures and the monad of the routes *)

Inductive Kind := KListing | KRequest.

(** Every call a route makes into a concept store.  A call that the store
    refuses throws and leaves its collection as it was. *)
Inductive StoreOp :=
| ItemCreate (k : Kind)
| ItemGet (k : Kind) (id : ObjectId)
| ItemEdit (k : Kind) (id : ObjectId)
| ItemDelete (k : Kind) (id : ObjectId)
| ItemHide (k : Kind) (id : ObjectId)
| ItemAssertAuthor (k : Kind) (id : ObjectId)
| ExpAllocate (k : Kind) (item : ObjectId)
| ExpGetByItem (k : Kind) (item : ObjectId)
| ExpDelete (k : Kind) (rid : ObjectId)
| ExpGetAllExpired (k : Kind)
| OfferCreate (item : ObjectId)
| OfferGet (id : ObjectId)
| OfferAccept (id : ObjectId)
| OfferRemoveAll (item : ObjectId)
| ClaimCreate (listing : ObjectId)
| TagItem (item : ObjectId) (tag : string).

Inductive Error :=
| NotFoundError (op : StoreOp)
| NotAllowedError (op : StoreOp)
| StoreFailure (op : StoreOp).

Inductive Result (A : Type) :=
| Ok (a : A)
| Err (e : Error).
Arguments Ok {A} a.
Arguments Err {A} e.

(** A fault plan: the calls the stores refuse, for whatever reason (the store
    is unreachable, a value is rejected). *)
Definition Faults := StoreOp → bool.

(** The stores honour their contracts: no call is refused. *)
Definition no_faults : Faults := λ _, false.

(** A route is a function of the collections that returns or throws; what it
    wrote before throwing stays written. *)
Definition M (A : Type) : Type := World → Result A * World.

Definition ret {A} (a : A) : M A := λ w, (Ok a, w).

Definition bind {A B} (m : M A) (k : A → M B) : M B :=
  λ w, match m w with
       | (Ok a, w') => k a w'
       | (Err e, w') => (Err e, w')
       end.

Definition throw {A} (e : Error) : M A := λ w, (Err e, w).

Definition try_catch {A} (body : M A) (handler : Error → M A) : M A :=
  λ w, match body w with
       | (Ok a, w') => (Ok a, w')
       | (Err e, w') => handler e w'
       end.

Definition gets {A} (f : World → A) : M A := λ w, (Ok (f w), w).

Definition modify (f : World → World) : M unit := λ w, (Ok tt, f w).

Declare Scope route_scope.
Delimit Scope route_scope with route.
Notation "x <- m ;; k" := (bind m (λ x, k))
  (at level 100, m at next level, right associativity) : route_scope.
Notation "m ;; k" := (bind m (λ _, k))
  (at level 100, right associativity) : route_scope.
Open Scope route_scope.

(** [for (const x of xs) { await body(x) }] *)
Fixpoint for_of {A} (xs : list A) (body : A → M unit) : M unit :=
  match xs with
  | [] => ret tt
  | x :: xs' => body x ;; for_of xs' body
  end.

(** The store is reached before anything else happens in a call. *)
Definition reach (F : Faults) (op : StoreOp) : M unit :=
  if F op then throw (StoreFailure op) else ret tt.

Definition run {A} (m : M A) (w : World) : World := snd (m w).
Definition outcome {A} (m : M A) (w : World) : Result A := fst (m w).

(** ** The concept stores

    The routes only see the stores through their operations.  The classes
    themselves (under [server/concepts]) are modelled from their
    contracts: an operation that returns a document
    throws [NotFoundError] when there is none, an operation that returns
    nothing leaves a collection without the document as it is. *)

Module Listing.

(** Modelled from the spec: [Listing.addListing], the Item store's
    [create(ownerId, fields) -> Item]; the new Item is visible. *)
Definition addListing (F : Faults) (author : ObjectId) (name meetup_location image : string)
    (quantity : Z) (description : string) (tags : list string)
    : M (ObjectId * ListingDoc) :=
  reach F (ItemCreate KListing);;
  id <- gets next_oid;;
  let doc := mkListing author name meetup_location image quantity description tags false in
  modify (λ w, bump_oid (with_listings (insert id doc) w));;
  ret (id, doc).

(** Modelled from the spec: [Listing.getListingById], the Item
    store's [getById(id) -> Item|NotFound]. *)
Definition getListingById (F : Faults) (id : ObjectId) : M ListingDoc :=
  reach F (ItemGet KListing id);;
  found <- gets (λ w, listings w !! id);;
  match found with
  | Some doc => ret doc
  | None => throw (NotFoundError (ItemGet KListing id))
  end.

Definition edit_fields (name meetup_location image : option string) (quantity : option Z)
    (description : option string) (tags : option (list string)) (l : ListingDoc) : ListingDoc :=
  mkListing (l_author l)
            (default (l_name l) name)
            (default (l_meetup_location l) meetup_location)
            (default (l_image l) image)
            (default (l_quantity l) quantity)
            (default (l_description l) description)
            (default (l_tags l) tags)
            (l_hidden l).

(** Modelled from the spec: [Listing.editlisting], the Item store's
    [edit(id, partialFields) -> Item]; an argument left [undefined] keeps
    the stored field. *)
Definition editlisting (F : Faults) (id : ObjectId) (name meetup_location image : option string)
    (quantity : option Z) (description : option string) (tags : option (list string))
    : M ListingDoc :=
  reach F (ItemEdit KListing id);;
  found <- gets (λ w, listings w !! id);;
  match found with
  | Some doc =>
      let doc' := edit_fields name meetup_location image quantity description tags doc in
      modify (with_listings (insert id doc'));;
      ret doc'
  | None => throw (NotFoundError (ItemEdit KListing id))
  end.

(** Modelled from the spec: [Listing.delete], the Item store's
    [delete(id) -> void]. *)
Definition delete (F : Faults) (id : ObjectId) : M unit :=
  reach F (ItemDelete KListing id);;
  modify (with_listings (base.delete id)).

(** Modelled from the spec: [Listing.hideSwitch], the Item store's
    [setHidden(id, true) -> void]. *)
Definition hideSwitch (F : Faults) (id : ObjectId) : M unit :=
  reach F (ItemHide KListing id);;
  modify (with_listings (alter hide_listing id)).

(** Modelled from the spec: [Listing.assertAuthorIsUser], the Item
    store's [assertAuthorIs(id, userId) -> void | AuthorizationError]. *)
Definition assertAuthorIsUser (F : Faults) (id user : ObjectId) : M unit :=
  reach F (ItemAssertAuthor KListing id);;
  found <- gets (λ w, listings w !! id);;
  match found with
  | Some doc =>
      if decide (l_author doc = user) then ret tt
      else throw (NotAllowedError (ItemAssertAuthor KListing id))
  | None => throw (NotFoundError (ItemAssertAuthor KListing id))
  end.

End Listing.

Module Requesting.

(** Modelled from the spec: [Requesting.add], the Item store's
    [create(ownerId, fields) -> Item]; the new Item is visible. *)
Definition add (F : Faults) (requester : ObjectId) (name : string) (quantity : Z)
    (image description : option string) : M (ObjectId * RequestDoc) :=
  reach F (ItemCreate KRequest);;
  id <- gets next_oid;;
  let doc := mkRequest requester name quantity image description false in
  modify (λ w, bump_oid (with_requests (insert id doc) w));;
  ret (id, doc).

(** Modelled from the spec: [Requesting.getRequestById], the Item
    store's [getById(id) -> Item|NotFound]. *)
Definition getRequestById (F : Faults) (id : ObjectId) : M RequestDoc :=
  reach F (ItemGet KRequest id);;
  found <- gets (λ w, requests w !! id);;
  match found with
  | Some doc => ret doc
  | None => throw (NotFoundError (ItemGet KRequest id))
  end.

(** Modelled from the spec: [Requesting.delete], the Item store's
    [delete(id) -> void]. *)
Definition delete (F : Faults) (id : ObjectId) : M unit :=
  reach F (ItemDelete KRequest id);;
  modify (with_requests (base.delete id)).

(** Modelled from the spec: [Requesting.hideSwitch], the Item
    store's [setHidden(id, true) -> void]. *)
Definition hideSwitch (F : Faults) (id : ObjectId) : M unit :=
  reach F (ItemHide KRequest id);;
  modify (with_requests (alter hide_request id)).

(** Modelled from the spec: [Requesting.assertAuthor], the Item
    store's [assertAuthorIs(id, userId) -> void | AuthorizationError]. *)
Definition assertAuthor (F : Faults) (id user : ObjectId) : M unit :=
  reach F (ItemAssertAuthor KRequest id);;
  found <- gets (λ w, requests w !! id);;
  match found with
  | Some doc =>
      if decide (r_requester doc = user) then ret tt
      else throw (NotAllowedError (ItemAssertAuthor KRequest id))
  | None => throw (NotFoundError (ItemAssertAuthor KRequest id))
  end.

End Requesting.

(** [Listing_Expiring] and [Request_Expiring] are two instances of one
    expiring concept, each over its own collection. *)
Definition expirations (k : Kind) (w : World) : gmap nat ExpireDoc :=
  match k with
  | KListing => listing_expirations w
  | KRequest => request_expirations w
  end.

Definition with_expirations (k : Kind) (f : gmap nat ExpireDoc → gmap nat ExpireDoc) : World → World :=
  match k with
  | KListing => with_listing_expirations f
  | KRequest => with_request_expirations f
  end.

Definition records_of_item (item : ObjectId) (m : gmap nat ExpireDoc) : list (ObjectId * ExpireDoc) :=
  filter (λ p, e_item p.2 = item) (map_to_list m).

Definition records_expired (now : Instant) (m : gmap nat ExpireDoc) : list (ObjectId * ExpireDoc) :=
  filter (λ p, e_expireAt p.2 ≤ now) (map_to_list m).

Module Expiring.

(** Modelled from the spec: [getExpireByItem] of the expiring concept, the
    ExpirationRecord store's [getByItem(itemId) -> Record|None]. *)
Definition getExpireByItem (F : Faults) (k : Kind) (item : ObjectId) : M (option (ObjectId * ExpireDoc)) :=
  reach F (ExpGetByItem k item);;
  gets (λ w, head (records_of_item item (expirations k w))).

(** Modelled from the spec: [allocate] of the expiring concept, the ExpirationRecord
    store's [allocate(itemId, date, time) -> Record]; a second record for an
    item that has one is an update of the first. *)
Definition allocate (F : Faults) (k : Kind) (item : ObjectId) (expireAt : Instant)
    : M (ObjectId * ExpireDoc) :=
  reach F (ExpAllocate k item);;
  existing <- gets (λ w, head (records_of_item item (expirations k w)));;
  let doc := mkExpire item expireAt in
  match existing with
  | Some (rid, _) =>
      modify (with_expirations k (insert rid doc));;
      ret (rid, doc)
  | None =>
      rid <- gets next_oid;;
      modify (λ w, bump_oid (with_expirations k (insert rid doc) w));;
      ret (rid, doc)
  end.

(** Modelled from the spec: [delete] of the expiring concept, the ExpirationRecord
    store's [delete(recordId) -> void]. *)
Definition delete (F : Faults) (k : Kind) (rid : ObjectId) : M unit :=
  reach F (ExpDelete k rid);;
  modify (with_expirations k (base.delete rid)).

(** Modelled from the spec: [getAllExpired] of the expiring concept, the
    ExpirationRecord store's [getAllExpired(now) -> [Record]], the records
    with target instant at or before now; the store reads the clock. *)
Definition getAllExpired (F : Faults) (k : Kind) : M (list (ObjectId * ExpireDoc)) :=
  reach F (ExpGetAllExpired k);;
  gets (λ w, records_expired (clock w) (expirations k w)).

End Expiring.

Module Listing_Expiring.
Definition allocate (F : Faults) := Expiring.allocate F KListing.
Definition getExpireByItem (F : Faults) := Expiring.getExpireByItem F KListing.
Definition delete (F : Faults) := Expiring.delete F KListing.
Definition getAllExpired (F : Faults) := Expiring.getAllExpired F KListing.
End Listing_Expiring.

Module Request_Expiring.
Definition allocate (F : Faults) := Expiring.allocate F KRequest.
Definition getExpireByItem (F : Faults) := Expiring.getExpireByItem F KRequest.
Definition delete (F : Faults) := Expiring.delete F KRequest.
Definition getAllExpired (F : Faults) := Expiring.getAllExpired F KRequest.
End Request_Expiring.

Module Offering.

(** Modelled from the spec: [Offering.offer]; a new Offer on a
    Request starts active. *)
Definition offer (F : Faults) (offerer item : ObjectId) (location : string)
    (image message : option string) : M (ObjectId * OfferDoc) :=
  reach F (OfferCreate item);;
  id <- gets next_oid;;
  let doc := mkOffer offerer item location image message OfferActive in
  modify (λ w, bump_oid (with_offers (insert id doc) w));;
  ret (id, doc).

(** Modelled from the spec: [Offering.getOfferById], the Offer
    store's [getById(id) -> Offer]. *)
Definition getOfferById (F : Faults) (id : ObjectId) : M OfferDoc :=
  reach F (OfferGet id);;
  found <- gets (λ w, offers w !! id);;
  match found with
  | Some doc => ret doc
  | None => throw (NotFoundError (OfferGet id))
  end.

(** Modelled from the spec: [Offering.accept], the Offer store's
    [accept(id) -> void]. *)
Definition accept (F : Faults) (id : ObjectId) : M unit :=
  reach F (OfferAccept id);;
  modify (with_offers (alter accept_offer id)).

(** Modelled from the spec: [Offering.removeAllItemOffers], the Offer
    store's [removeAllForItem(requestId) -> void]. *)
Definition removeAllItemOffers (F : Faults) (item : ObjectId) : M unit :=
  reach F (OfferRemoveAll item);;
  modify (with_offers (filter (λ p, o_item p.2 ≠ item))).

End Offering.

Module Claiming.

(** Modelled from the spec: [Claiming.claim]; a Claim references a
    Listing, a claiming user and a quantity. *)
Definition claim (F : Faults) (claimer : ObjectId) (quantity : Z) (listing : ObjectId)
    : M (ObjectId * ClaimDoc) :=
  reach F (ClaimCreate listing);;
  id <- gets next_oid;;
  let doc := mkClaim claimer quantity listing in
  modify (λ w, bump_oid (with_claims (insert id doc) w));;
  ret (id, doc).

End Claiming.

Module Tagging.

(** Modelled from the spec: [Tagging.tagItem]; a tag association
    links an item id and a tag label. *)
Definition tagItem (F : Faults) (item : ObjectId) (tag : string) : M unit :=
  reach F (TagItem item tag);;
  modify (with_tagged (λ ts, (ts ++ [(item, tag)])%list)).

End Tagging.

(** ** The routes ([server/routes.ts])

    [Sessioning.getUser(session)] has already produced [user], and
    [Responses.*] only formats the document a route returns. *)

(** [addListing].  [createdListing] is still [null] when [Listing.addListing]
    throws, so that error passes through the handler untouched; once it is
    set, every throw of the rest of the [try] block runs the rollback. *)
Definition addListing (F : Faults) (user : ObjectId) (name meetup_location image : string)
    (quantity : Z) (expireDate : Instant) (description : string) (tags : list string)
    : M (ObjectId * ListingDoc) :=
  created <- Listing.addListing F user name meetup_location image quantity description tags;;
  let createdListing := created in
  try_catch
    (Listing_Expiring.allocate F createdListing.1 expireDate;;
     for_of tags (λ tag, Tagging.tagItem F createdListing.1 tag);;
     ret createdListing)
    (λ error,
       try_catch (Listing.delete F createdListing.1) (λ rollbackError, ret tt);;
       throw error).

(** [addRequest], the same saga without tags. *)
Definition addRequest (F : Faults) (user : ObjectId) (name : string) (quantity : Z)
    (needBy : Instant) (image description : option string) : M (ObjectId * RequestDoc) :=
  created <- Requesting.add F user name quantity image description;;
  let createdRequest := created in
  try_catch
    (Request_Expiring.allocate F createdRequest.1 needBy;;
     ret createdRequest)
    (λ error,
       try_catch (Requesting.delete F createdRequest.1) (λ rollbackError, ret tt);;
       throw error).

(** [deleteListing] *)
Definition deleteListing (F : Faults) (user oid : ObjectId) : M unit :=
  Listing.assertAuthorIsUser F oid user;;
  try_catch
    (listingExp <- Listing_Expiring.getExpireByItem F oid;;
     match listingExp with
     | Some (rid, _) => Listing_Expiring.delete F rid
     | None => ret tt
     end)
    (λ error, ret tt);;
  Listing.delete F oid.

(** [deleteRequest] *)
Definition deleteRequest (F : Faults) (user oid : ObjectId) : M unit :=
  Requesting.assertAuthor F oid user;;
  try_catch
    (RequestExp <- Request_Expiring.getExpireByItem F oid;;
     match RequestExp with
     | Some (rid, _) => Request_Expiring.delete F rid
     | None => ret tt
     end)
    (λ error, ret tt);;
  Offering.removeAllItemOffers F oid;;
  Requesting.delete F oid.

(** The integers on which the arithmetic of JS numbers is exact
    ([Number.isSafeInteger]).  The routes compute on doubles; on safe
    integers with a safe result, their [-], [<=] and [===] are those of the
    integers. *)
Definition safe_integer (z : Z) : Prop := - (2 ^ 53 - 1) ≤ z ≤ 2 ^ 53 - 1.

Inductive ClaimResponse :=
| ClaimCreated (id : ObjectId) (claim : ClaimDoc)
| ClaimMessage (msg : string).

(** [claim].  The quantities are numbers of the route; the model has them
    as integers, which is what the route computes on safe integers
    ([safe_integer]), and the properties of the arithmetic of a claim are
    stated there. *)
Definition claim (F : Faults) (user oid : ObjectId) (quantity : Z) : M ClaimResponse :=
  listing <- Listing.getListingById F oid;;
  if decide (quantity ≤ l_quantity listing) then
    let newQuantity := l_quantity listing - quantity in
    created <- Claiming.claim F user quantity oid;;
    Listing.editlisting F oid (Some (l_name listing)) (Some (l_meetup_location listing))
      (Some (l_image listing)) (Some newQuantity) None None;;
    (if decide (quantity = l_quantity listing) then Listing.hideSwitch F oid else ret tt);;
    ret (ClaimCreated created.1 created.2)
  else
    ret (ClaimMessage "Attempted to claim more items than are available.").

(** [acceptOffer] *)
Definition acceptOffer (F : Faults) (user oid : ObjectId) : M string :=
  offer <- Offering.getOfferById F oid;;
  Requesting.hideSwitch F (o_item offer);;
  Offering.accept F oid;;
  ret "Accepted offer!".

(** ** The sweep ([api/index.ts]) *)

(** One turn of the loop of [handleListingsExpired].  [getListingById]
    returns a document or throws, so [listing &&] holds in both tests. *)
Definition sweep_listing (F : Faults) (doc : ObjectId * ExpireDoc) : M unit :=
  try_catch
    (let itemOid := e_item doc.2 in
     listing <- Listing.getListingById F itemOid;;
     if negb (l_hidden listing) then
       Listing.hideSwitch F itemOid;;
       Listing_Expiring.delete F doc.1
     else
       Listing_Expiring.delete F doc.1)
    (λ error, ret tt).

Definition handleListingsExpired (F : Faults) : M unit :=
  try_catch
    (expiredDocs <- Listing_Expiring.getAllExpired F;;
     match expiredDocs with
     | [] => ret tt
     | _ => for_of expiredDocs (sweep_listing F)
     end)
    (λ error, ret tt).

Definition sweep_request (F : Faults) (doc : ObjectId * ExpireDoc) : M unit :=
  try_catch
    (let itemOid := e_item doc.2 in
     request <- Requesting.getRequestById F itemOid;;
     if negb (r_hidden request) then
       Requesting.hideSwitch F itemOid;;
       Request_Expiring.delete F doc.1
     else
       Request_Expiring.delete F doc.1)
    (λ error, ret tt).

Definition handleRequestsExpired (F : Faults) : M unit :=
  try_catch
    (expiredDocs <- Request_Expiring.getAllExpired F;;
     match expiredDocs with
     | [] => ret tt
     | _ => for_of expiredDocs (sweep_request F)
     end)
    (λ error, ret tt).

(** The body of [cron.schedule]: one tick. *)
Definition cron_tick (F : Faults) : M unit :=
  try_catch
    (handleListingsExpired F;;
     handleRequestsExpired F)
    (λ error, ret tt).

(** ** The sweep as a fold

    Both handlers run the same loop over their own two collections.  With
    the fault plan read off as three tests (can the item be fetched, can it
    be hidden, can the record be deleted) one turn of the loop is a function
    of the pair of collections, and a handler is the fold of that function
    over the expired records.  The handlers above are proved equal to it. *)

Definition sweep_one {D : Type} (hidden : D → bool) (hide : D → D)
    (get_ok hide_ok del_ok : ObjectId → bool)
    (st : gmap nat D * gmap nat ExpireDoc) (doc : ObjectId * ExpireDoc)
    : gmap nat D * gmap nat ExpireDoc :=
  let item := e_item doc.2 in
  if get_ok item then
    match st.1 !! item with
    | None => st
    | Some d =>
        if negb (hidden d) then
          if hide_ok item then
            (alter hide item st.1, if del_ok doc.1 then delete doc.1 st.2 else st.2)
          else st
        else
          (st.1, if del_ok doc.1 then delete doc.1 st.2 else st.2)
    end
  else st.

Definition sweep_all {D : Type} (hidden : D → bool) (hide : D → D)
    (get_ok hide_ok del_ok : ObjectId → bool)
    (docs : list (ObjectId * ExpireDoc)) (st : gmap nat D * gmap nat ExpireDoc)
    : gmap nat D * gmap nat ExpireDoc :=
  foldl (sweep_one hidden hide get_ok hide_ok del_ok) st docs.

Definition put_listing_sweep (st : gmap nat ListingDoc * gmap nat ExpireDoc) (w : World) : World :=
  with_listing_expirations (λ _, st.2) (with_listings (λ _, st.1) w).

Definition put_request_sweep (st : gmap nat RequestDoc * gmap nat ExpireDoc) (w : World) : World :=
  with_request_expirations (λ _, st.2) (with_requests (λ _, st.1) w).

Definition can (F : Faults) (op : ObjectId → StoreOp) : ObjectId → bool :=
  λ id, negb (F (op id)).

Definition listing_turn (F : Faults) :=
  sweep_one l_hidden hide_listing (can F (ItemGet KListing)) (can F (ItemHide KListing))
    (can F (ExpDelete KListing)).

Definition request_turn (F : Faults) :=
  sweep_one r_hidden hide_request (can F (ItemGet KRequest)) (can F (ItemHide KRequest))
    (can F (ExpDelete KRequest)).

Definition listing_turns (F : Faults) :=
  sweep_all l_hidden hide_listing (can F (ItemGet KListing)) (can F (ItemHide KListing))
    (can F (ExpDelete KListing)).

Definition request_turns (F : Faults) :=
  sweep_all r_hidden hide_request (can F (ItemGet KRequest)) (can F (ItemHide KRequest))
    (can F (ExpDelete KRequest)).

Definition swept_listings (F : Faults) (w : World) : World :=
  if F (ExpGetAllExpired KListing) then w
  else put_listing_sweep
         (listing_turns F (records_expired (clock w) (listing_expirations w))
            (listings w, listing_expirations w)) w.

Definition swept_requests (F : Faults) (w : World) : World :=
  if F (ExpGetAllExpired KRequest) then w
  else put_request_sweep
         (request_turns F (records_expired (clock w) (request_expirations w))
            (requests w, request_expirations w)) w.

(** Every expired record of a settled collection points at a missing item:
    the sweep has nothing left that it would touch. *)
Definition settled_listings (w : World) : Prop :=
  ∀ r d, listing_expirations w !! r = Some d → e_expireAt d ≤ clock w →
         listings w !! e_item d = None.

Definition settled_requests (w : World) : Prop :=
  ∀ r d, request_expirations w !! r = Some d → e_expireAt d ≤ clock w →
         requests w !! e_item d = None.

(** ** Fault plans *)

#[global] Instance Kind_eq_dec : EqDecision Kind.
Proof. solve_decision. Defined.
#[global] Instance StoreOp_eq_dec : EqDecision StoreOp.
Proof. solve_decision. Defined.

(** The plan in which exactly the listed calls are refused. *)
Definition fail_on (ops : list StoreOp) : Faults := λ op, bool_decide (op ∈ ops).

(** ** Core operations and reachable states *)

Inductive CoreOp :=
| DoAddListing (user : ObjectId) (name meetup_location image : string) (quantity : Z)
    (expireDate : Instant) (description : string) (tags : list string)
| DoAddRequest (user : ObjectId) (name : string) (quantity : Z) (needBy : Instant)
    (image description : option string)
| DoDeleteListing (user oid : ObjectId)
| DoDeleteRequest (user oid : ObjectId)
| DoClaim (user oid : ObjectId) (quantity : Z)
| DoAcceptOffer (user oid : ObjectId)
| DoCronTick.

Definition discard {A} (m : M A) : M unit := m ;; ret tt.

Definition exec (F : Faults) (op : CoreOp) : M unit :=
  match op with
  | DoAddListing user name meetup_location image quantity expireDate description tags =>
      discard (addListing F user name meetup_location image quantity expireDate description tags)
  | DoAddRequest user name quantity needBy image description =>
      discard (addRequest F user name quantity needBy image description)
  | DoDeleteListing user oid => deleteListing F user oid
  | DoDeleteRequest user oid => deleteRequest F user oid
  | DoClaim user oid quantity => discard (claim F user oid quantity)
  | DoAcceptOffer user oid => discard (acceptOffer F user oid)
  | DoCronTick => cron_tick F
  end.

Definition set_clock (now : Instant) (w : World) : World :=
  mkWorld (listings w) (requests w) (listing_expirations w)
          (request_expirations w) (offers w) (claims w) (tagged w)
          (next_oid w) now.

(** States the system gets to from an empty database: by the core
    operations under any fault plan, by users making offers, and by time
    passing. *)
Inductive reachable : World → Prop :=
| reachable_init (now : Instant) : reachable (empty_world now)
| reachable_core (F : Faults) (op : CoreOp) (w : World) :
    reachable w → reachable (run (exec F op) w)
| reachable_offer (user item : ObjectId) (location : string) (image message : option string)
    (w : World) :
    reachable w → reachable (run (Offering.offer no_faults user item location image message) w)
| reachable_time (now : Instant) (w : World) :
    reachable w → clock w ≤ now → reachable (set_clock now w).

(** ** Invariants and relations between states *)

(** Ids handed out so far are below [next_oid]. *)
Definition ids_fresh (w : World) : Prop :=
  ∀ id, (next_oid w ≤ id)%nat → listings w !! id = None ∧ requests w !! id = None.

(** An Item that is hidden in [w] is hidden or gone in [w']. *)
Definition hidden_monotone (w w' : World) : Prop :=
  (∀ id l, listings w !! id = Some l → l_hidden l = true →
     match listings w' !! id with Some l' => l_hidden l' = true | None => True end) ∧
  (∀ id r, requests w !! id = Some r → r_hidden r = true →
     match requests w' !! id with Some r' => r_hidden r' = true | None => True end).

(** From [w] to [w']: ids only grow, and an Item of [w'] is either a new one
    or one of [w] that has not been made visible again. *)
Definition evolves (w w' : World) : Prop :=
  (next_oid w ≤ next_oid w')%nat ∧
  (∀ id l', listings w' !! id = Some l' →
     (∃ l, listings w !! id = Some l ∧ (l_hidden l = true → l_hidden l' = true)) ∨
     (next_oid w ≤ id < next_oid w')%nat) ∧
  (∀ id r', requests w' !! id = Some r' →
     (∃ r, requests w !! id = Some r ∧ (r_hidden r = true → r_hidden r' = true)) ∨
     (next_oid w ≤ id < next_oid w')%nat).

(** At most one expiration record per item. *)
Definition one_record_per_item (m : gmap nat ExpireDoc) : Prop :=
  ∀ r1 r2 d1 d2, m !! r1 = Some d1 → m !! r2 = Some d2 → e_item d1 = e_item d2 → r1 = r2.

Definition records_unique (w : World) : Prop :=
  one_record_per_item (listing_expirations w) ∧ one_record_per_item (request_expirations w).

Definition keeps_records_unique (w w' : World) : Prop :=
  records_unique w → records_unique w'.

(** Every run of [m] relates the state it starts in to the state it
    leaves, whether it returns or throws. *)
Definition preserving (R : World → World → Prop) {A} (m : M A) : Prop :=
  ∀ w, R w (m w).2.

(** The Listing after a claim of [quantity] has gone through. *)
Definition claimed (quantity : Z) (l : ListingDoc) : ListingDoc :=
  mkListing (l_author l) (l_name l) (l_meetup_location l) (l_image l)
            (l_quantity l - quantity) (l_description l) (l_tags l)
            (if decide (quantity = l_quantity l) then true else l_hidden l).

(** ** Scenarios *)

(** An empty database, a Listing and a Request to create in it. *)
Definition bread_world : World := empty_world 0.
Definition soup : RequestDoc := mkRequest 1 "soup" 2 None None false.
Definition bread : ListingDoc := mkListing 7 "bread" "lobby" "img" 3 "fresh" ["vegan"] false.

Definition refuse_listing_expiration : Faults := fail_on [ExpAllocate KListing 0].
Definition refuse_listing_expiration_and_rollback : Faults :=
  fail_on [ExpAllocate KListing 0; ItemDelete KListing 0].
Definition refuse_vegan_tag : Faults := fail_on [TagItem 0 "vegan"].

(** A Listing whose expiration date (100) has passed (now is 200). *)
Definition expired_bread_world : World :=
  run (addListing no_faults 7 "bread" "lobby" "img" 3 100 "fresh" ["vegan"]) (empty_world 200).

(** That Listing deleted by its author while the expiration store refused
    the cleanup: its record is stale. *)
Definition stale_bread_world : World :=
  run (deleteListing (fail_on [ExpDelete KListing 1]) 7 0) expired_bread_world.

(** That Listing hidden by the sweep. *)
Definition hidden_bread_world : World :=
  run (exec no_faults DoCronTick)
    (run (exec no_faults (DoAddListing 7 "bread" "lobby" "img" 3 100 "fresh" ["vegan"]))
       (empty_world 200)).

(** A Request with its expiration record and two Offers. *)
Definition soup_world : World :=
  run (Offering.offer no_faults 9 0 "porch" None None)
    (run (Offering.offer no_faults 8 0 "gate" None None)
       (run (exec no_faults (DoAddRequest 1 "soup" 2 300 None None)) (empty_world 200))).

(** ** More of the routes ([server/routes.ts]) *)

From Stdlib Require QArith.

Abbreviation Q := QArith_base.Q.

(** Modelled from the spec: [editExpiration] of the expiring concept, the
    ExpirationRecord store's [edit(recordId, date, time) -> Record]; the
    record keeps its item. *)
Definition editExpiration (k : Kind) (F : Faults) (rid : ObjectId) (expireAt : Instant)
    : M (ObjectId * ExpireDoc) :=
  found <- gets (λ w, expirations k w !! rid);;
  match found with
  | Some old =>
      let doc := mkExpire (e_item old) expireAt in
      modify (with_expirations k (insert rid doc));;
      ret (rid, doc)
  | None => throw (NotFoundError (ExpGetByItem k rid))
  end.

Section OtherStoreCalls.

(** Two store operations the routes below call and the contracts do not
    pin down, [Listing_Expiring.editExpiration] and [Requesting.edit]: the
    routes are written over whatever these do. *)
Variable edit_expiration : Faults → ObjectId → Instant → M (ObjectId * ExpireDoc).
Variable edit_request :
  Faults → ObjectId → ObjectId → option string → option Z → option string → option string →
  M RequestDoc.

(** [editlisting], the route.  [expireDate] is [None] when the caller left
    it out or sent the empty string. *)
Definition editlisting (F : Faults) (user id : ObjectId) (name meetup_location image : option string)
    (quantity : option Z) (expireDate : option Instant) (description : option string)
    (tags : option (list string)) : M ListingDoc :=
  Listing.assertAuthorIsUser F id user;;
  updatedListing <- Listing.editlisting F id name meetup_location image quantity description tags;;
  match expireDate with
  | Some date =>
      try_catch
        (listingExp <- Listing_Expiring.getExpireByItem F id;;
         match listingExp with
         | Some (rid, _) => edit_expiration F rid date;; ret tt
         | None => Listing_Expiring.allocate F id date;; ret tt
         end)
        (λ error, ret tt)
  | None => ret tt
  end;;
  ret updatedListing.

(** [updateRequest] *)
Definition updateRequest (F : Faults) (user id : ObjectId) (name : option string)
    (quantity : option Z) (image description : option string) (hideSwitch : bool)
    : M RequestDoc :=
  (if hideSwitch then
     Requesting.assertAuthor F id user;;
     Requesting.hideSwitch F id
   else
     edit_request F user id name quantity image description;; ret tt);;
  Requesting.getRequestById F id.

End OtherStoreCalls.

(** [reduce] without an initial value: [None] is the [TypeError] on an empty
    array. *)
Definition reduce {A} (f : A → A → A) (xs : list A) : option A :=
  match xs with
  | [] => None
  | x :: xs' => Some (foldl f x xs')
  end.

(** [getAverageRating], on the reviews the store returned for the subject.
    [None] would be an exception.  The model adds and divides exact
    rationals where the route adds and divides doubles: the two agree on
    whether a value is returned, and on bounds that are whole numbers whose
    multiples up to the number of ratings are safe integers, which rounding
    cannot cross. *)
Definition getAverageRating (ratings_of_subject : list Q) : option Q :=
  if decide (0 < length ratings_of_subject)%nat then
    let ratings := ratings_of_subject in
    total ← reduce QArith_base.Qplus ratings;
    Some (QArith_base.Qdiv total (QArith_base.inject_Z (Z.of_nat (length ratings))))
  else
    Some (QArith_base.inject_Z 0).

(** ** The forms that call the creation routes ([client/components])

    [createListing] and [createRequest] up to the request they send; what
    the components do with the response is not part of the model.  Numbers
    are exact rationals, which is what comparing them needs. *)

Definition Qlt_bool (x y : Q) : bool := negb (QArith_base.Qle_bool y x).

Record ListingForm := mkListingForm {
  lf_name : string;
  lf_meetupLocation : string;
  lf_imageUrl : string;
  lf_quantity : option Q;
  lf_expireDate : string;
  lf_description : string;
  lf_tags : list string
}.

Record RequestForm := mkRequestForm {
  rf_name : string;
  rf_imageUrl : string;
  rf_quantity : Q;
  rf_needBy : string;
  rf_description : string
}.

(** What a submit ends in: one message shown, or the body sent. *)
Inductive Submit (Body : Type) :=
| Alert (msg : string)
| ImageError (msg : string)
| DateError (msg : string)
| QuantityError (msg : string)
| RatingError (msg : string)
| Post (body : Body).
Arguments Alert {Body} msg.
Arguments ImageError {Body} msg.
Arguments DateError {Body} msg.
Arguments QuantityError {Body} msg.
Arguments RatingError {Body} msg.
Arguments Post {Body} body.

(** [!s] on a string, [!q] on a number or [null]. *)
Definition empty_string (s : string) : bool := bool_decide (s = "").
Definition zero_or_null (q : option Q) : bool :=
  match q with
  | Some x => QArith_base.Qeq_bool x (QArith_base.inject_Z 0)
  | None => true
  end.

Section Forms.

(** The platform: [new URL(url).protocol], [None] when the constructor
    throws, and [new Date(value).getTime()], [None] when it is [NaN]. *)
Variable url_protocol : string → option string.
Variable date_time : string → option Instant.

Definition isValidUrl (url : string) : bool :=
  match url_protocol url with
  | Some protocol => bool_decide (protocol = "http:") || bool_decide (protocol = "https:")
  | None => false
  end.

Definition isValidDate (value : string) : bool :=
  if empty_string value then false
  else match date_time value with
       | Some _ => true
       | None => false
       end.

(** [createListing] of [CreateListingForm.vue].  In [quantity.value! < 1] a
    [null] counts as 0. *)
Definition createListing (form : ListingForm) : Submit ListingForm :=
  if empty_string (lf_name form) || empty_string (lf_meetupLocation form)
     || zero_or_null (lf_quantity form) || empty_string (lf_imageUrl form)
     || empty_string (lf_description form)
  then Alert "All fields are required."
  else if negb (isValidUrl (lf_imageUrl form))
  then ImageError "Please enter a valid image URL."
  else if negb (isValidDate (lf_expireDate form))
  then DateError "Please select a valid expiration date."
  else
    let quantity := default (QArith_base.inject_Z 0) (lf_quantity form) in
    if Qlt_bool quantity (QArith_base.inject_Z 1) || Qlt_bool (QArith_base.inject_Z 100) quantity
    then QuantityError "Quantity must be between 1 and 100."
    else Post form.

(** [createRequest] of [CreateRequestForm.vue]. *)
Definition createRequest (form : RequestForm) : Submit RequestForm :=
  if empty_string (rf_name form) || zero_or_null (Some (rf_quantity form))
     || empty_string (rf_needBy form) || empty_string (rf_imageUrl form)
     || empty_string (rf_description form)
  then Alert "All fields are required."
  else if negb (isValidUrl (rf_imageUrl form))
  then ImageError "Please enter a valid image URL."
  else if negb (isValidDate (rf_needBy form))
  then DateError "Please select a valid date."
  else if Qlt_bool (rf_quantity form) (QArith_base.inject_Z 1)
          || Qlt_bool (QArith_base.inject_Z 100) (rf_quantity form)
  then QuantityError "Quantity must be between 1 and 100."
  else Post form.

End Forms.

Record ReviewForm := mkReviewForm {
  vf_userId : ObjectId;
  vf_rating : Q;
  vf_message : string
}.

(** [createReview] of [CreateReviewForm.vue]. *)
Definition createReview (form : ReviewForm) : Submit ReviewForm :=
  if Qlt_bool (vf_rating form) (QArith_base.inject_Z 1)
     || Qlt_bool (QArith_base.inject_Z 5) (vf_rating form)
  then RatingError "Rating must be between 1 and 5."
  else Post form.

(** Whether a turn of the loop does anything: the item can be fetched, is
    there, and is hidden or can be hidden. *)
Definition sweep_acts {D : Type} (hidden : D → bool) (get_ok hide_ok : ObjectId → bool)
    (st : gmap nat D * gmap nat ExpireDoc) (doc : ObjectId * ExpireDoc) : bool :=
  get_ok (e_item doc.2) &&
  match st.1 !! e_item doc.2 with
  | Some d => hidden d || hide_ok (e_item doc.2)
  | None => false
  end.

(** ** More scenarios *)

(** Two Listings, both past their date. *)
Definition rice : ListingDoc := mkListing 7 "rice" "porch" "img" 5 "dry" [] false.
Definition two_listings_world : World :=
  run (addListing no_faults 7 "rice" "porch" "img" 5 150 "dry" [])
    (run (addListing no_faults 7 "bread" "lobby" "img" 3 100 "fresh" ["vegan"])
       (empty_world 200)).

(** A Listing whose date (300) is still ahead (now is 200). *)
Definition fresh_bread_world : World :=
  run (addListing no_faults 7 "bread" "lobby" "img" 3 300 "fresh" ["vegan"]) (empty_world 200).

Definition refuse_bread_fetch : Faults := fail_on [ItemGet KListing 0].

(** * Properties *)

(** ** The monad *)

Ltac unfold_stores :=
  cbv beta iota delta
    [Listing.addListing Listing.getListingById Listing.editlisting Listing.delete
     Listing.hideSwitch Listing.assertAuthorIsUser
     Requesting.add Requesting.getRequestById Requesting.delete Requesting.hideSwitch
     Requesting.assertAuthor
     Listing_Expiring.allocate Listing_Expiring.getExpireByItem Listing_Expiring.delete
     Listing_Expiring.getAllExpired
     Request_Expiring.allocate Request_Expiring.getExpireByItem Request_Expiring.delete
     Request_Expiring.getAllExpired
     Expiring.allocate Expiring.getExpireByItem Expiring.delete Expiring.getAllExpired
     Offering.offer Offering.getOfferById Offering.accept Offering.removeAllItemOffers
     Claiming.claim] in *.

Ltac unfold_monad :=
  cbv beta iota delta [bind ret throw try_catch gets modify reach run outcome discard] in *.

Lemma reach_no_faults op w : reach no_faults op w = (Ok tt, w).
Proof. reflexivity. Qed.

(** ** Relations kept by every route *)

Section Preserving.

Context (R : World → World → Prop) `{!PreOrder R}.

Lemma preserving_ret {A} (a : A) : preserving R (ret a).
Proof. intros w. reflexivity. Qed.

Lemma preserving_throw {A} e : preserving R (throw e : M A).
Proof. intros w. reflexivity. Qed.

Lemma preserving_gets {A} (f : World → A) : preserving R (gets f).
Proof. intros w. reflexivity. Qed.

Lemma preserving_reach F op : preserving R (reach F op).
Proof. intros w. unfold reach. destruct (F op); reflexivity. Qed.

Lemma preserving_modify f : (∀ w, R w (f w)) → preserving R (modify f).
Proof. intros Hf w. apply Hf. Qed.

Lemma preserving_bind {A B} (m : M A) (k : A → M B) :
  preserving R m → (∀ a, preserving R (k a)) → preserving R (bind m k).
Proof.
  intros Hm Hk w. unfold bind. specialize (Hm w). destruct (m w) as [[a|e] w1]; [|done].
  etrans; [exact Hm | apply Hk].
Qed.

Lemma preserving_try_catch {A} (m : M A) (h : Error → M A) :
  preserving R m → (∀ e, preserving R (h e)) → preserving R (try_catch m h).
Proof.
  intros Hm Hh w. unfold try_catch. specialize (Hm w). destruct (m w) as [[a|e] w1]; [done|].
  etrans; [exact Hm | apply Hh].
Qed.

Lemma preserving_for_of {A} (xs : list A) (body : A → M unit) :
  (∀ x, preserving R (body x)) → preserving R (for_of xs body).
Proof.
  intros Hbody. induction xs as [|x xs IH]; [apply preserving_ret|].
  cbn [for_of]. apply preserving_bind; [apply Hbody | by intros _].
Qed.

End Preserving.

Create HintDb preserving.

#[local] Hint Resolve preserving_ret preserving_throw preserving_gets preserving_reach
  : preserving.

(** Walks down a route: binds, handlers, loops and branches; what a store
    writes is left to the hints. *)
Ltac preserve_step :=
  lazymatch goal with
  | |- preserving _ (bind _ _) => apply preserving_bind; [tc_solve| |]
  | |- preserving _ (try_catch _ _) => apply preserving_try_catch; [tc_solve| |]
  | |- preserving _ (for_of _ _) => apply preserving_for_of; [tc_solve|]
  | |- preserving _ (modify _) => apply preserving_modify
  | |- preserving _ (match ?x with _ => _ end) => destruct x
  | |- preserving _ (if ?b then _ else _) => destruct b
  | |- preserving _ _ => solve [eauto with preserving typeclass_instances]
  | |- ∀ _, _ => intro
  | |- _ =>
      try match goal with |- context [with_expirations ?k] => is_var k; destruct k end;
      solve [eauto with preserving]
  end.

Ltac preserve := repeat (cbn zeta; preserve_step).

Ltac unfold_instances :=
  unfold Listing_Expiring.allocate, Listing_Expiring.getExpireByItem, Listing_Expiring.delete,
    Listing_Expiring.getAllExpired, Request_Expiring.allocate,
    Request_Expiring.getExpireByItem, Request_Expiring.delete, Request_Expiring.getAllExpired.

(** The routes are built from the store operations alone: a relation kept
    by each store operation is kept by every core operation. *)
Section Routes.

Context (R : World → World → Prop) `{!PreOrder R}.

Hypothesis store_addListing : ∀ F author name meetup_location image quantity description tags,
  preserving R (Listing.addListing F author name meetup_location image quantity description tags).
Hypothesis store_getListingById : ∀ F id, preserving R (Listing.getListingById F id).
Hypothesis store_editlisting : ∀ F id name meetup_location image quantity description tags,
  preserving R (Listing.editlisting F id name meetup_location image quantity description tags).
Hypothesis store_delete_listing : ∀ F id, preserving R (Listing.delete F id).
Hypothesis store_hide_listing : ∀ F id, preserving R (Listing.hideSwitch F id).
Hypothesis store_assertAuthorIsUser : ∀ F id user, preserving R (Listing.assertAuthorIsUser F id user).
Hypothesis store_add : ∀ F requester name quantity image description,
  preserving R (Requesting.add F requester name quantity image description).
Hypothesis store_getRequestById : ∀ F id, preserving R (Requesting.getRequestById F id).
Hypothesis store_delete_request : ∀ F id, preserving R (Requesting.delete F id).
Hypothesis store_hide_request : ∀ F id, preserving R (Requesting.hideSwitch F id).
Hypothesis store_assertAuthor : ∀ F id user, preserving R (Requesting.assertAuthor F id user).
Hypothesis store_allocate : ∀ F k item expireAt, preserving R (Expiring.allocate F k item expireAt).
Hypothesis store_getExpireByItem : ∀ F k item, preserving R (Expiring.getExpireByItem F k item).
Hypothesis store_delete_record : ∀ F k rid, preserving R (Expiring.delete F k rid).
Hypothesis store_getAllExpired : ∀ F k, preserving R (Expiring.getAllExpired F k).
Hypothesis store_getOfferById : ∀ F id, preserving R (Offering.getOfferById F id).
Hypothesis store_accept : ∀ F id, preserving R (Offering.accept F id).
Hypothesis store_removeAllItemOffers : ∀ F item, preserving R (Offering.removeAllItemOffers F item).
Hypothesis store_claim : ∀ F claimer quantity listing,
  preserving R (Claiming.claim F claimer quantity listing).
Hypothesis store_tagItem : ∀ F item tag, preserving R (Tagging.tagItem F item tag).

#[local] Hint Resolve store_addListing store_getListingById store_editlisting
  store_delete_listing store_hide_listing store_assertAuthorIsUser store_add
  store_getRequestById store_delete_request store_hide_request store_assertAuthor
  store_allocate store_getExpireByItem store_delete_record store_getAllExpired
  store_getOfferById store_accept store_removeAllItemOffers store_claim store_tagItem
  : preserving.

Lemma preserving_addListing F user name meetup_location image quantity expireDate description tags :
  preserving R (addListing F user name meetup_location image quantity expireDate description tags).
Proof. unfold addListing. unfold_instances. preserve. Qed.

Lemma preserving_addRequest F user name quantity needBy image description :
  preserving R (addRequest F user name quantity needBy image description).
Proof. unfold addRequest. unfold_instances. preserve. Qed.

Lemma preserving_deleteListing F user oid : preserving R (deleteListing F user oid).
Proof. unfold deleteListing. unfold_instances. preserve. Qed.

Lemma preserving_deleteRequest F user oid : preserving R (deleteRequest F user oid).
Proof. unfold deleteRequest. unfold_instances. preserve. Qed.

Lemma preserving_claim F user oid quantity : preserving R (claim F user oid quantity).
Proof. unfold claim. preserve. Qed.

Lemma preserving_acceptOffer F user oid : preserving R (acceptOffer F user oid).
Proof. unfold acceptOffer. preserve. Qed.

Lemma preserving_cron_tick F : preserving R (cron_tick F).
Proof.
  unfold cron_tick, handleListingsExpired, handleRequestsExpired, sweep_listing, sweep_request.
  unfold_instances. preserve.
Qed.

Lemma preserving_exec F op : preserving R (exec F op).
Proof.
  destruct op; cbn [exec]; unfold discard; preserve;
    eauto using preserving_addListing, preserving_addRequest, preserving_deleteListing,
      preserving_deleteRequest, preserving_claim, preserving_acceptOffer, preserving_cron_tick.
Qed.

End Routes.

(** ** The hidden flag never goes back *)

#[local] Instance evolves_preorder : PreOrder evolves.
Proof.
  split.
  - intros w. split; [done|]. split; intros id x Hx; left; by exists x.
  - intros w1 w2 w3 (Hn12 & Hl12 & Hr12) (Hn23 & Hl23 & Hr23). split; [lia|]. split.
    + intros id l3 H3. destruct (Hl23 id l3 H3) as [(l2 & H2 & Hh23) | Hnew]; [|right; lia].
      destruct (Hl12 id l2 H2) as [(l1 & H1 & Hh12) | Hnew]; [|right; lia].
      left. exists l1. auto.
    + intros id r3 H3. destruct (Hr23 id r3 H3) as [(r2 & H2 & Hh23) | Hnew]; [|right; lia].
      destruct (Hr12 id r2 H2) as [(r1 & H1 & Hh12) | Hnew]; [|right; lia].
      left. exists r1. auto.
Qed.

Lemma empty_world_fresh now : ids_fresh (empty_world now).
Proof. intros id _. split; apply lookup_empty. Qed.

Lemma evolves_fresh w w' : ids_fresh w → evolves w w' → ids_fresh w'.
Proof.
  intros Hfresh (Hn & Hl & Hr) id Hid. split.
  - destruct (listings w' !! id) as [l'|] eqn:Hl'; [|done].
    destruct (Hl id l' Hl') as [(l & Hsome & _) | Hnew]; [|lia].
    destruct (Hfresh id) as [Hnone _]; [lia|]. congruence.
  - destruct (requests w' !! id) as [r'|] eqn:Hr'; [|done].
    destruct (Hr id r' Hr') as [(r & Hsome & _) | Hnew]; [|lia].
    destruct (Hfresh id) as [_ Hnone]; [lia|]. congruence.
Qed.

Lemma evolves_monotone w w' : ids_fresh w → evolves w w' → hidden_monotone w w'.
Proof.
  intros Hfresh (Hn & Hl & Hr). split.
  - intros id l Hsome Hh. destruct (listings w' !! id) as [l'|] eqn:Hl'; [|done].
    destruct (Hl id l' Hl') as [(l0 & Hsome0 & Himp) | Hnew].
    + rewrite Hsome in Hsome0. injection Hsome0 as <-. auto.
    + destruct (Hfresh id) as [Hnone _]; [lia|]. congruence.
  - intros id r Hsome Hh. destruct (requests w' !! id) as [r'|] eqn:Hr'; [|done].
    destruct (Hr id r' Hr') as [(r0 & Hsome0 & Himp) | Hnew].
    + rewrite Hsome in Hsome0. injection Hsome0 as <-. auto.
    + destruct (Hfresh id) as [_ Hnone]; [lia|]. congruence.
Qed.

Lemma evolves_same_items w w' :
  (next_oid w ≤ next_oid w')%nat → listings w' = listings w → requests w' = requests w →
  evolves w w'.
Proof.
  intros Hn Hl Hr. split; [done|]. rewrite Hl, Hr.
  split; intros id x Hx; left; by exists x.
Qed.

Lemma evolves_delete_listing id w : evolves w (with_listings (delete id) w).
Proof.
  split; [done|]. split; cbn.
  - intros i l' [_ Hl']%lookup_delete_Some. left. by exists l'.
  - intros i r' Hr'. left. by exists r'.
Qed.

Lemma evolves_delete_request id w : evolves w (with_requests (delete id) w).
Proof.
  split; [done|]. split; cbn.
  - intros i l' Hl'. left. by exists l'.
  - intros i r' [_ Hr']%lookup_delete_Some. left. by exists r'.
Qed.

Lemma evolves_hide_listing id w : evolves w (with_listings (alter hide_listing id) w).
Proof.
  split; [done|]. split; cbn.
  - intros i l' Hl'. left. apply lookup_alter_Some in Hl' as [(-> & l & Hl & ->) | [_ Hl]].
    + by exists l.
    + by exists l'.
  - intros i r' Hr'. left. by exists r'.
Qed.

Lemma evolves_hide_request id w : evolves w (with_requests (alter hide_request id) w).
Proof.
  split; [done|]. split; cbn.
  - intros i l' Hl'. left. by exists l'.
  - intros i r' Hr'. left. apply lookup_alter_Some in Hr' as [(-> & r & Hr & ->) | [_ Hr]].
    + by exists r.
    + by exists r'.
Qed.

Lemma evolves_addListing_store F author name meetup_location image quantity description tags :
  preserving evolves
    (Listing.addListing F author name meetup_location image quantity description tags).
Proof.
  intros w. unfold_stores. unfold_monad. destruct (F _); [reflexivity|]. cbn.
  split; [cbn; lia|]. split; cbn.
  - intros i l' [[<- _] | [_ Hl']]%lookup_insert_Some; [right; lia|]. left. by exists l'.
  - intros i r' Hr'. left. by exists r'.
Qed.

Lemma evolves_add_store F requester name quantity image description :
  preserving evolves (Requesting.add F requester name quantity image description).
Proof.
  intros w. unfold_stores. unfold_monad. destruct (F _); [reflexivity|]. cbn.
  split; [cbn; lia|]. split; cbn.
  - intros i l' Hl'. left. by exists l'.
  - intros i r' [[<- _] | [_ Hr']]%lookup_insert_Some; [right; lia|]. left. by exists r'.
Qed.

Lemma evolves_editlisting F id name meetup_location image quantity description tags :
  preserving evolves
    (Listing.editlisting F id name meetup_location image quantity description tags).
Proof.
  intros w. unfold_stores. unfold_monad. destruct (F _); [reflexivity|]. cbn.
  destruct (listings w !! id) as [l|] eqn:Hl; [|reflexivity]. cbn.
  split; [done|]. split; cbn.
  - intros i l' [[<- <-] | [_ Hl']]%lookup_insert_Some; left; [by exists l | by exists l'].
  - intros i r' Hr'. left. by exists r'.
Qed.

(** A write to another collection, or one that only takes a new id. *)
Ltac evolves_elsewhere :=
  intros; apply evolves_same_items; cbn; first [done | lia].

#[local] Hint Resolve evolves_delete_listing evolves_delete_request evolves_hide_listing
  evolves_hide_request : preserving.
#[local] Hint Extern 5 (evolves _ _) => evolves_elsewhere : preserving.

Lemma evolves_exec F op : preserving evolves (exec F op).
Proof.
  apply preserving_exec; [tc_solve|..]; intros;
    first [ apply evolves_addListing_store | apply evolves_add_store
          | apply evolves_editlisting | idtac ];
    unfold Listing.getListingById, Listing.delete, Listing.hideSwitch,
      Listing.assertAuthorIsUser, Requesting.getRequestById, Requesting.delete,
      Requesting.hideSwitch, Requesting.assertAuthor, Expiring.allocate,
      Expiring.getExpireByItem, Expiring.delete, Expiring.getAllExpired,
      Offering.getOfferById, Offering.accept, Offering.removeAllItemOffers,
      Claiming.claim, Tagging.tagItem;
    preserve.
Qed.

Lemma evolves_offer F offerer item location image message :
  preserving evolves (Offering.offer F offerer item location image message).
Proof. unfold Offering.offer. preserve. Qed.

Lemma reachable_fresh w : reachable w → ids_fresh w.
Proof.
  induction 1 as [now | F op w _ IH | user item location image message w _ IH | now w _ IH _].
  - apply empty_world_fresh.
  - eapply evolves_fresh; [exact IH | apply evolves_exec].
  - eapply evolves_fresh; [exact IH | apply evolves_offer].
  - exact IH.
Qed.

(** The same from any state whose ids are fresh, however it was reached. *)
Lemma fresh_ids_keep_hidden F op w :
  ids_fresh w → hidden_monotone w (run (exec F op) w).
Proof. intros Hfresh. apply evolves_monotone; [done | apply evolves_exec]. Qed.

(** C3.  From a reachable state, whatever the stores refuse, a core
    operation leaves every Item that was hidden either hidden or deleted. *)
Theorem hidden_never_cleared F op w :
  reachable w → hidden_monotone w (run (exec F op) w).
Proof.
  intros Hreach. apply evolves_monotone; [by apply reachable_fresh | apply evolves_exec].
Qed.

Lemma hidden_never_cleared_witness :
  reachable hidden_bread_world ∧
  hidden_monotone hidden_bread_world (run (exec no_faults (DoClaim 5 0 1)) hidden_bread_world).
Proof.
  assert (reachable hidden_bread_world) as Hreach.
  { unfold hidden_bread_world. do 2 apply reachable_core. apply reachable_init. }
  split; [exact Hreach|]. exact (hidden_never_cleared no_faults (DoClaim 5 0 1) _ Hreach).
Defined.

(** ** One expiration record per item *)

#[local] Instance keeps_records_unique_preorder : PreOrder keeps_records_unique.
Proof.
  split.
  - intros w Hw. exact Hw.
  - intros w1 w2 w3 H12 H23 H1. apply H23, H12, H1.
Qed.

Lemma records_of_item_none item m :
  head (records_of_item item m) = None →
  ∀ rid d, m !! rid = Some d → e_item d ≠ item.
Proof.
  intros Hhead%head_None rid d Hd Hitem.
  assert ((rid, d) ∈ records_of_item item m) as Hin.
  { unfold records_of_item. rewrite list_elem_of_filter, elem_of_map_to_list. done. }
  rewrite Hhead in Hin. by apply elem_of_nil in Hin.
Qed.

Lemma records_of_item_some item m rid d :
  head (records_of_item item m) = Some (rid, d) →
  m !! rid = Some d ∧ e_item d = item.
Proof.
  intros Hhead%head_Some_elem_of. unfold records_of_item in Hhead.
  apply list_elem_of_filter in Hhead as [Hitem Hin]. by apply elem_of_map_to_list in Hin.
Qed.

Lemma one_record_delete m rid : one_record_per_item m → one_record_per_item (delete rid m).
Proof.
  intros Hone r1 r2 d1 d2 [_ H1]%lookup_delete_Some [_ H2]%lookup_delete_Some.
  by apply Hone.
Qed.

Lemma one_record_update m rid old doc :
  m !! rid = Some old → e_item old = e_item doc →
  one_record_per_item m → one_record_per_item (<[rid := doc]> m).
Proof.
  intros Hold Hitem Hone r1 r2 d1 d2.
  intros [[<- <-] | [Hne1 H1]]%lookup_insert_Some [[<- <-] | [Hne2 H2]]%lookup_insert_Some Heq;
    [done | | | by apply (Hone r1 r2 d1 d2)].
  - apply (Hone rid r2 old d2); congruence.
  - apply (Hone r1 rid d1 old); congruence.
Qed.

Lemma one_record_new m rid doc :
  (∀ r d, m !! r = Some d → e_item d ≠ e_item doc) →
  one_record_per_item m → one_record_per_item (<[rid := doc]> m).
Proof.
  intros Hnew Hone r1 r2 d1 d2.
  intros [[<- <-] | [Hne1 H1]]%lookup_insert_Some [[<- <-] | [Hne2 H2]]%lookup_insert_Some Heq;
    [done | | | by apply (Hone r1 r2 d1 d2)].
  - by destruct (Hnew r2 d2 H2).
  - by destruct (Hnew r1 d1 H1).
Qed.

Lemma unique_same_records w w' :
  listing_expirations w' = listing_expirations w →
  request_expirations w' = request_expirations w →
  keeps_records_unique w w'.
Proof. intros Hl Hr [HL HR]. split; [by rewrite Hl | by rewrite Hr]. Qed.

Lemma unique_allocate F k item expireAt :
  preserving keeps_records_unique (Expiring.allocate F k item expireAt).
Proof.
  intros w [HL HR]. unfold_stores. unfold_monad. destruct (F _); [done|].
  destruct (head (records_of_item item (expirations k w))) as [[rid old]|] eqn:Hhead; cbn.
  - apply records_of_item_some in Hhead as [Hold Hitem].
    destruct k; split; cbn; try done; by eapply one_record_update.
  - pose proof (records_of_item_none _ _ Hhead) as Hnone.
    destruct k; split; cbn; try done; by apply one_record_new.
Qed.

Lemma unique_delete_record F k rid :
  preserving keeps_records_unique (Expiring.delete F k rid).
Proof.
  intros w [HL HR]. unfold_stores. unfold_monad. destruct (F _); [done|].
  destruct k; split; cbn; try done; by apply one_record_delete.
Qed.

#[local] Hint Extern 5 (keeps_records_unique _ _) =>
  intros; apply unique_same_records; reflexivity : preserving.

Lemma unique_exec F op : preserving keeps_records_unique (exec F op).
Proof.
  apply preserving_exec; [tc_solve|..]; intros;
    first [ apply unique_allocate | apply unique_delete_record | idtac ];
    unfold Listing.addListing, Listing.getListingById, Listing.editlisting, Listing.delete,
      Listing.hideSwitch, Listing.assertAuthorIsUser, Requesting.add,
      Requesting.getRequestById, Requesting.delete, Requesting.hideSwitch,
      Requesting.assertAuthor, Expiring.getExpireByItem, Expiring.getAllExpired,
      Offering.getOfferById, Offering.accept, Offering.removeAllItemOffers,
      Claiming.claim, Tagging.tagItem;
    preserve.
Qed.

(** The data-model invariant holds in every reachable state. *)
Lemma reachable_records_unique w : reachable w → records_unique w.
Proof.
  induction 1 as [now | F op w _ IH | user item location image message w _ IH | now w _ IH _].
  - split; intros r1 r2 d1 d2 H1; cbn in H1; by rewrite lookup_empty in H1.
  - by apply (unique_exec F op w).
  - exact IH.
  - exact IH.
Qed.

(** ** Creation saga *)


Lemma rollback_request {A} F id e w :
  (try_catch (Requesting.delete F id) (λ _, ret tt);; (throw e : M A)) w =
  (Err e, if F (ItemDelete KRequest id) then w else with_requests (delete id) w).
Proof. unfold_stores. unfold_monad. by destruct (F _). Qed.

Lemma allocate_fails F k item expireAt e w w' :
  Expiring.allocate F k item expireAt w = (Err e, w') →
  F (ExpAllocate k item) = true ∧ e = StoreFailure (ExpAllocate k item) ∧ w' = w.
Proof.
  unfold_stores. unfold_monad. destruct (F _); [by intros [= <- <-]|].
  by destruct (head _) as [[rid ?]|].
Qed.






(** What the saga does then: the original error still reaches the caller,
    and the Item is still in its collection. *)
Lemma saga_rollback_refused F user name quantity needBy image description w id doc w1 e w2 :
  Requesting.add F user name quantity image description w = (Ok (id, doc), w1) →
  Request_Expiring.allocate F id needBy w1 = (Err e, w2) →
  F (ItemDelete KRequest id) = true →
  outcome (addRequest F user name quantity needBy image description) w = Err e ∧
  requests (run (addRequest F user name quantity needBy image description) w) !! id = Some doc.
Proof.
  intros Hcreate Halloc Hdel.
  assert (addRequest F user name quantity needBy image description w = (Err e, w2)) as Hrun.
  { unfold addRequest, bind at 1. rewrite Hcreate. cbn [fst snd].
    unfold try_catch at 1, bind at 1. by rewrite Halloc, rollback_request, Hdel. }
  unfold outcome, run. rewrite Hrun. split; [done|]. cbn [snd].
  apply allocate_fails in Halloc as (_ & _ & ->).
  revert Hcreate. unfold_stores. unfold_monad. destruct (F (ItemCreate KRequest)); cbn; [by intros [=]|].
  intros [= <- <- <-]. cbn. apply lookup_insert_eq.
Qed.

Lemma tag_loop_ok F id tags w :
  Forall (λ tag, F (TagItem id tag) = false) tags →
  for_of tags (λ tag, Tagging.tagItem F id tag) w =
  (Ok tt, with_tagged (λ ts, (ts ++ (pair id <$> tags))%list) w).
Proof.
  intros Hall. revert w. induction Hall as [|tag tags Htag _ IH]; intros w.
  - cbn. unfold ret, with_tagged. rewrite app_nil_r. by destruct w.
  - cbn [for_of]. unfold bind at 1. unfold Tagging.tagItem at 1, reach, bind at 1.
    rewrite Htag. unfold ret at 1, modify. rewrite IH. f_equal.
    unfold with_tagged. cbn. by rewrite <- app_assoc.
Qed.

Lemma addListing_create_refused F user name meetup_location image quantity expireDate
    description tags w :
  F (ItemCreate KListing) = true →
  addListing F user name meetup_location image quantity expireDate description tags w
  = (Err (StoreFailure (ItemCreate KListing)), w).
Proof. intros HF. unfold addListing. unfold_stores. unfold_monad. by rewrite HF. Qed.

Lemma addRequest_create_refused F user name quantity needBy image description w :
  F (ItemCreate KRequest) = true →
  addRequest F user name quantity needBy image description w
  = (Err (StoreFailure (ItemCreate KRequest)), w).
Proof. intros HF. unfold addRequest. unfold_stores. unfold_monad. by rewrite HF. Qed.

(** C8 (as amended).  A creation that throws at the write of the Item or of
    its ExpirationRecord, with the compensating delete not refused, leaves the
    Item collection and the expiration collection as they were: the Item is
    not there and no record has been created for it. *)
Theorem failed_creation_leaves_nothing :
  (∀ F user name meetup_location image quantity expireDate description tags w e w',
     ids_fresh w →
     addListing F user name meetup_location image quantity expireDate description tags w
       = (Err e, w') →
     F (ItemDelete KListing (next_oid w)) = false →
     Forall (λ tag, F (TagItem (next_oid w) tag) = false) tags →
     listings w' !! next_oid w = None ∧
     listings w' = listings w ∧
     listing_expirations w' = listing_expirations w) ∧
  (∀ F user name quantity needBy image description w e w',
     ids_fresh w →
     addRequest F user name quantity needBy image description w = (Err e, w') →
     F (ItemDelete KRequest (next_oid w)) = false →
     requests w' !! next_oid w = None ∧
     requests w' = requests w ∧
     request_expirations w' = request_expirations w).
Proof.
  split.
  - intros * Hfresh Hrun Hdel Htags.
    destruct (Hfresh (next_oid w)) as [Hnone _]; [lia|].
    destruct (F (ItemCreate KListing)) eqn:Hcreate.
    { rewrite addListing_create_refused in Hrun by done. by injection Hrun as _ <-. }
    revert Hrun. unfold addListing. unfold_stores. unfold_monad.
    rewrite Hcreate. cbn [fst snd].
    destruct (F (ExpAllocate KListing (next_oid w))) eqn:Halloc.
    + rewrite Hdel. intros [= _ <-]. cbn. rewrite delete_insert_id by done. done.
    + destruct (head _) as [[rid ?]|]; cbn [expirations with_expirations];
        rewrite tag_loop_ok by done; discriminate.
  - intros * Hfresh Hrun Hdel.
    destruct (Hfresh (next_oid w)) as [_ Hnone]; [lia|].
    destruct (F (ItemCreate KRequest)) eqn:Hcreate.
    { rewrite addRequest_create_refused in Hrun by done. by injection Hrun as _ <-. }
    revert Hrun. unfold addRequest. unfold_stores. unfold_monad.
    rewrite Hcreate. cbn [fst snd].
    destruct (F (ExpAllocate KRequest (next_oid w))) eqn:Halloc.
    + rewrite Hdel. intros [= _ <-]. cbn. rewrite delete_insert_id by done. done.
    + destruct (head _) as [[rid ?]|]; discriminate.
Qed.

Lemma failed_creation_witness :
  listings (run (addListing refuse_listing_expiration 7 "bread" "lobby" "img" 3 100 "fresh"
                   ["vegan"]) bread_world) !! 0%nat = None ∧
  listing_expirations (run (addListing refuse_listing_expiration 7 "bread" "lobby" "img" 3 100
                   "fresh" ["vegan"]) bread_world) = ∅.
Proof.
  destruct (proj1 failed_creation_leaves_nothing refuse_listing_expiration 7%nat "bread"
              "lobby" "img" 3 100 "fresh" ["vegan"] bread_world
              (StoreFailure (ExpAllocate KListing 0))
              (run (addListing refuse_listing_expiration 7 "bread" "lobby" "img" 3 100 "fresh"
                      ["vegan"]) bread_world))
    as (Hgone & _ & Hexp).
  - apply empty_world_fresh.
  - vm_compute. reflexivity.
  - vm_compute. reflexivity.
  - repeat constructor.
  - split; [exact Hgone | exact Hexp].
Defined.

(** With the rollback refused too, the failed creation leaves the Item in
    its collection. *)
Lemma failed_creation_item_stays_counterexample :
  ¬ (∀ e w',
       addListing refuse_listing_expiration_and_rollback 7 "bread" "lobby" "img" 3 100 "fresh"
         ["vegan"] bread_world = (Err e, w') →
       listings w' !! 0%nat = None ∧
       (∀ rid d, listing_expirations w' !! rid = Some d → is_Some (listings w' !! e_item d))).
Proof.
  intros H.
  destruct (H (StoreFailure (ExpAllocate KListing 0))
              (with_listings (insert 0%nat bread) (bump_oid bread_world))) as [Hgone _].
  - vm_compute. reflexivity.
  - vm_compute in Hgone. discriminate Hgone.
Qed.

Lemma tag_loop_refused F id tags tag w :
  tag ∈ tags → F (TagItem id tag) = true →
  ∃ tag' ts, tag' ∈ tags ∧
    for_of tags (λ t, Tagging.tagItem F id t) w
    = (Err (StoreFailure (TagItem id tag')), with_tagged (λ _, ts) w).
Proof.
  intros Hin Htag. revert w. induction tags as [|t tags IH]; intros w.
  { by apply elem_of_nil in Hin. }
  cbn [for_of]. unfold bind at 1, Tagging.tagItem at 1, reach, bind at 1.
  destruct (F (TagItem id t)) eqn:Ht.
  - exists t, (tagged w). split; [apply list_elem_of_here|]. unfold throw. by destruct w.
  - apply elem_of_cons in Hin as [-> | Hin]; [congruence|].
    destruct (IH Hin (with_tagged (λ ts, (ts ++ [(id, t)])%list) w)) as (tag' & ts & Hin' & Hrun).
    exists tag', ts. split; [by apply list_elem_of_further|].
    unfold ret at 1, modify. by rewrite Hrun.
Qed.

(** The same on every call: once the Listing and its ExpirationRecord are
    written, a refused tag write sends the route into the rollback written
    for the expiration failure.  The Listing is deleted, the tag error is
    thrown, and the record stays. *)
Lemma tag_failure_orphans_record F user name meetup_location image quantity expireDate
    description tags tag w :
  F (ItemCreate KListing) = false →
  F (ExpAllocate KListing (next_oid w)) = false →
  tag ∈ tags → F (TagItem (next_oid w) tag) = true →
  F (ItemDelete KListing (next_oid w)) = false →
  let r := addListing F user name meetup_location image quantity expireDate description tags w in
  (∃ tag', tag' ∈ tags ∧ r.1 = Err (StoreFailure (TagItem (next_oid w) tag'))) ∧
  listings r.2 !! next_oid w = None ∧
  (∃ rid, listing_expirations r.2 !! rid = Some (mkExpire (next_oid w) expireDate)).
Proof.
  intros Hcreate Halloc Hin Htag Hdel r. subst r.
  unfold addListing. unfold_stores. unfold_monad. rewrite Hcreate. cbn [fst snd].
  rewrite Halloc. cbn [fst snd].
  destruct (head _) as [[rid old]|]; cbn [expirations with_expirations].
  - match goal with |- context [for_of tags ?body ?w0] =>
      destruct (tag_loop_refused F (next_oid w) tags tag w0 Hin Htag) as (tag' & ts & Hin' & ->)
    end.
    rewrite Hdel. cbn. split; [by exists tag'|]. split; [apply lookup_delete_eq|].
    exists rid. apply lookup_insert_eq.
  - match goal with |- context [for_of tags ?body ?w0] =>
      destruct (tag_loop_refused F (next_oid w) tags tag w0 Hin Htag) as (tag' & ts & Hin' & ->)
    end.
    rewrite Hdel. cbn. split; [by exists tag'|]. split; [apply lookup_delete_eq|].
    exists (S (next_oid w)). apply lookup_insert_eq.
Qed.

(** C7 (the code at the failing input).  One tag, whose write the store
    refuses, after the Listing and its ExpirationRecord were written: the
    route throws the tag error, the Listing is deleted by the rollback, and
    its ExpirationRecord is left behind. *)
Theorem tag_failure_rolls_listing_back :
  outcome (addListing refuse_vegan_tag 7 "bread" "lobby" "img" 3 100 "fresh" ["vegan"]) bread_world
    = Err (StoreFailure (TagItem 0 "vegan")) ∧
  listings (run (addListing refuse_vegan_tag 7 "bread" "lobby" "img" 3 100 "fresh" ["vegan"])
              bread_world) !! 0%nat = None ∧
  listing_expirations (run (addListing refuse_vegan_tag 7 "bread" "lobby" "img" 3 100 "fresh"
              ["vegan"]) bread_world) !! 1%nat = Some (mkExpire 0 100).
Proof. vm_compute. done. Qed.

(** ** The sweep loop on a pair of collections *)

Section SweepFoldFacts.

Context {D : Type}.
Variable hidden : D → bool.
Variable hide : D → D.
Hypothesis hide_hidden : ∀ d, hidden (hide d) = true.
Hypothesis hide_id : ∀ d, hidden d = true → hide d = d.

Variables get_ok hide_ok del_ok : ObjectId → bool.

Local Abbreviation step := (sweep_one hidden hide get_ok hide_ok del_ok).
Local Abbreviation sweep := (sweep_all hidden hide get_ok hide_ok del_ok).

Lemma hide_hide d : hide (hide d) = hide d.
Proof. by rewrite hide_id. Qed.

Lemma sweep_all_cons doc docs st : sweep (doc :: docs) st = sweep docs (step st doc).
Proof. reflexivity. Qed.

(** A turn either leaves an item alone or hides it. *)
Lemma sweep_one_item st doc i :
  (step st doc).1 !! i = st.1 !! i ∨
  ∃ d, st.1 !! i = Some d ∧ (step st doc).1 !! i = Some (hide d).
Proof.
  unfold sweep_one. destruct (get_ok _); [|by left].
  destruct (st.1 !! e_item doc.2) as [d|] eqn:Hd; [|by left].
  destruct (negb (hidden d)); [|by left].
  destruct (hide_ok _); [|by left]. cbn [fst].
  destruct (decide (e_item doc.2 = i)) as [<-|Hne].
  - right. exists d. by rewrite lookup_alter_eq, Hd.
  - left. by rewrite lookup_alter_ne.
Qed.

Lemma sweep_all_item docs st i :
  (sweep docs st).1 !! i = st.1 !! i ∨
  ∃ d, st.1 !! i = Some d ∧ (sweep docs st).1 !! i = Some (hide d).
Proof.
  revert st. induction docs as [|doc docs IH]; intros st; [by left|].
  rewrite sweep_all_cons.
  destruct (IH (step st doc)) as [-> | (d' & Hd' & ->)]; [apply sweep_one_item|].
  destruct (sweep_one_item st doc i) as [Heq | (d & Hd & Heq)].
  - right. exists d'. by rewrite <- Heq.
  - right. exists d. rewrite Heq in Hd'. injection Hd' as <-. by rewrite hide_hide.
Qed.

Lemma sweep_all_item_None docs st i :
  st.1 !! i = None → (sweep docs st).1 !! i = None.
Proof.
  intros Hnone. destruct (sweep_all_item docs st i) as [-> | (d & Hd & _)]; [done|].
  by rewrite Hnone in Hd.
Qed.

Lemma sweep_all_item_hidden docs st i d :
  st.1 !! i = Some d → hidden d = true → (sweep docs st).1 !! i = Some d.
Proof.
  intros Hd Hh. destruct (sweep_all_item docs st i) as [-> | (d' & Hd' & ->)]; [done|].
  rewrite Hd in Hd'. injection Hd' as <-. by rewrite hide_id.
Qed.

Lemma sweep_all_item_Some docs st i d :
  st.1 !! i = Some d →
  (sweep docs st).1 !! i = Some d ∨ (sweep docs st).1 !! i = Some (hide d).
Proof.
  intros Hd. destruct (sweep_all_item docs st i) as [-> | (d' & Hd' & ->)]; [by left|].
  rewrite Hd in Hd'. injection Hd' as <-. by right.
Qed.

(** A turn either leaves the records alone or deletes its own record, the
    latter only when the item of that record is there. *)
Lemma sweep_one_record st doc r :
  (step st doc).2 !! r = st.2 !! r ∨
  ((step st doc).2 !! r = None ∧ r = doc.1 ∧ is_Some (st.1 !! e_item doc.2)).
Proof.
  unfold sweep_one. destruct (get_ok _); [|by left].
  destruct (st.1 !! e_item doc.2) as [d|] eqn:Hd; [|by left].
  assert ((if del_ok doc.1 then delete doc.1 st.2 else st.2) !! r = st.2 !! r ∨
          ((if del_ok doc.1 then delete doc.1 st.2 else st.2) !! r = None ∧ r = doc.1 ∧
           is_Some (Some d))) as Hdel.
  { destruct (del_ok _); [|by left]. destruct (decide (doc.1 = r)) as [<-|Hne].
    - right. by rewrite lookup_delete_eq.
    - left. by rewrite lookup_delete_ne. }
  destruct (negb (hidden d)); [|done]. destruct (hide_ok _); [done|by left].
Qed.

Lemma sweep_all_record docs st r :
  (sweep docs st).2 !! r = st.2 !! r ∨
  ((sweep docs st).2 !! r = None ∧ ∃ d, (r, d) ∈ docs ∧ is_Some (st.1 !! e_item d)).
Proof.
  revert st. induction docs as [|doc docs IH]; intros st; [by left|].
  rewrite sweep_all_cons.
  destruct (IH (step st doc)) as [-> | (Hnone & d & Hin & Hsome)].
  - destruct (sweep_one_record st doc r) as [-> | (Hnone & -> & Hsome)]; [by left|].
    right. split; [done|]. exists doc.2. split; [|done].
    destruct doc; apply list_elem_of_here.
  - right. split; [done|]. exists d. split; [by apply list_elem_of_further|].
    destruct (st.1 !! e_item d) eqn:Hd; [done|].
    destruct (sweep_one_item st doc (e_item d)) as [Heq | (d' & Hd' & _)].
    + rewrite Heq, Hd in Hsome. by destruct Hsome.
    + by rewrite Hd in Hd'.
Qed.

Lemma sweep_all_record_Some docs st r d :
  (sweep docs st).2 !! r = Some d → st.2 !! r = Some d.
Proof.
  intros H. destruct (sweep_all_record docs st r) as [Heq | [Hnone _]]; congruence.
Qed.

Lemma sweep_all_record_None docs st r :
  st.2 !! r = None → (sweep docs st).2 !! r = None.
Proof.
  intros H. destruct (sweep_all_record docs st r) as [Heq | [Hnone _]]; congruence.
Qed.

(** A record whose item is missing survives the loop. *)
Lemma sweep_all_stale docs st r :
  (∀ d, (r, d) ∈ docs → st.1 !! e_item d = None) →
  (sweep docs st).2 !! r = st.2 !! r.
Proof.
  intros Hstale. destruct (sweep_all_record docs st r) as [Heq | (_ & d & Hin & Hsome)]; [done|].
  rewrite (Hstale d Hin) in Hsome. by destruct Hsome.
Qed.

(** Turns over records whose items are all missing do nothing. *)
Lemma sweep_all_skip docs st :
  (∀ r d, (r, d) ∈ docs → st.1 !! e_item d = None) → sweep docs st = st.
Proof.
  revert st. induction docs as [|[r d] docs IH]; intros st Hall; [done|].
  rewrite sweep_all_cons.
  assert (step st (r, d) = st) as ->.
  { unfold sweep_one. cbn [fst snd]. rewrite (Hall r d); [|apply list_elem_of_here].
    by destruct (get_ok _). }
  apply IH. intros r' d' Hin. apply (Hall r' d'). by apply list_elem_of_further.
Qed.

(** An item the store refuses to hide stays as it is. *)
Lemma sweep_all_item_frozen docs st i :
  hide_ok i = false → (sweep docs st).1 !! i = st.1 !! i.
Proof.
  intros Hno. revert st. induction docs as [|doc docs IH]; intros st; [done|].
  rewrite sweep_all_cons, IH. unfold sweep_one.
  destruct (get_ok _); [|done]. destruct (st.1 !! e_item doc.2) as [d|]; [|done].
  destruct (negb (hidden d)); [|done]. destruct (hide_ok (e_item doc.2)) eqn:Hok; [|done].
  cbn [fst]. apply lookup_alter_ne. congruence.
Qed.

(** An item of the batch that can be fetched and hidden ends up hidden. *)
Lemma sweep_all_hidden_after docs st r d x :
  (r, d) ∈ docs → get_ok (e_item d) = true → hide_ok (e_item d) = true →
  st.1 !! e_item d = Some x →
  (sweep docs st).1 !! e_item d = Some (hide x).
Proof.
  intros Hin Hget Hhide. revert st x. induction docs as [|doc docs IH]; intros st x Hx.
  { by apply elem_of_nil in Hin. }
  rewrite sweep_all_cons. apply elem_of_cons in Hin as [<- | Hin].
  - apply sweep_all_item_hidden; [|apply hide_hidden].
    unfold sweep_one. cbn [fst snd]. rewrite Hget, Hx, Hhide.
    destruct (hidden x) eqn:Hh; cbn [negb fst].
    + by rewrite Hx, hide_id.
    + by rewrite lookup_alter_eq, Hx.
  - destruct (sweep_one_item st doc (e_item d)) as [Heq | (x' & Hx' & Heq)].
    + apply IH; [done | by rewrite Heq].
    + rewrite Hx in Hx'. injection Hx' as <-.
      rewrite (IH Hin (step st doc) (hide x) Heq). by rewrite hide_hide.
Qed.

(** A record of the batch is deleted when its item can be fetched, is
    hidden or can be hidden, and the record can be deleted. *)
Lemma sweep_all_deleted docs st r d x :
  (r, d) ∈ docs → get_ok (e_item d) = true → del_ok r = true →
  st.1 !! e_item d = Some x → hidden x = true ∨ hide_ok (e_item d) = true →
  (sweep docs st).2 !! r = None.
Proof.
  intros Hin Hget Hdel. revert st x. induction docs as [|doc docs IH]; intros st x Hx Hcan.
  { by apply elem_of_nil in Hin. }
  rewrite sweep_all_cons. apply elem_of_cons in Hin as [<- | Hin].
  - apply sweep_all_record_None. unfold sweep_one. cbn [fst snd]. rewrite Hget, Hx, Hdel.
    destruct (hidden x) eqn:Hh; cbn [negb snd]; [apply lookup_delete_eq|].
    destruct Hcan as [? | ->]; [done|]. apply lookup_delete_eq.
  - destruct (sweep_one_item st doc (e_item d)) as [Heq | (x' & Hx' & Heq)].
    + apply (IH Hin (step st doc) x); [by rewrite Heq | done].
    + apply (IH Hin (step st doc) (hide x')); [done | left; apply hide_hidden].
Qed.

Lemma sweep_all_fixed docs st :
  (∀ doc, doc ∈ docs → step st doc = st) → sweep docs st = st.
Proof.
  induction docs as [|doc docs IH]; intros Hall; [done|].
  rewrite sweep_all_cons, Hall by apply list_elem_of_here.
  apply IH. intros doc' Hin. by apply Hall, list_elem_of_further.
Qed.

(** Running the loop again over records that were in the first batch and
    are still there changes nothing. *)
Lemma sweep_all_again docs docs' st :
  (∀ r d, (r, d) ∈ docs' → (r, d) ∈ docs ∧ (sweep docs st).2 !! r = Some d) →
  sweep docs' (sweep docs st) = sweep docs st.
Proof.
  intros Hleft. apply sweep_all_fixed. intros [r d] [Hin Hrec]%Hleft.
  unfold sweep_one. cbn [fst snd].
  destruct (get_ok (e_item d)) eqn:Hget; [|done].
  destruct ((sweep docs st).1 !! e_item d) as [x'|] eqn:Hx'; [|done].
  assert (∃ x, st.1 !! e_item d = Some x) as [x Hx].
  { destruct (st.1 !! e_item d) as [x|] eqn:Hx; [by exists x|].
    by rewrite sweep_all_item_None in Hx'. }
  destruct (hidden x') eqn:Hh; cbn [negb].
  - destruct (del_ok r) eqn:Hdel; [|by destruct (sweep docs st)].
    assert (hidden x = true ∨ hide_ok (e_item d) = true) as Hcan.
    { destruct (hide_ok (e_item d)) eqn:Hhide; [by right|]. left.
      rewrite sweep_all_item_frozen, Hx in Hx' by done. congruence. }
    rewrite (sweep_all_deleted docs st r d x Hin Hget Hdel Hx Hcan) in Hrec. done.
  - destruct (hide_ok (e_item d)) eqn:Hhide; [|done].
    rewrite (sweep_all_hidden_after docs st r d x Hin Hget Hhide Hx) in Hx'.
    injection Hx' as <-. by rewrite hide_hidden in Hh.
Qed.

Section NothingRefused.

Hypothesis get_always : ∀ i, get_ok i = true.
Hypothesis hide_always : ∀ i, hide_ok i = true.
Hypothesis del_always : ∀ r, del_ok r = true.

Lemma sweep_one_done st r d x :
  st.1 !! e_item d = Some x →
  (step st (r, d)).2 !! r = None ∧ (step st (r, d)).1 !! e_item d = Some (hide x).
Proof.
  intros Hx. unfold sweep_one. cbn [fst snd].
  rewrite get_always, Hx, hide_always, del_always.
  destruct (hidden x) eqn:Hh; cbn [negb fst snd].
  - rewrite lookup_delete_eq, Hx, hide_id; done.
  - by rewrite lookup_delete_eq, lookup_alter_eq, Hx.
Qed.

(** When no call is refused, every record of the batch whose item is
    there is deleted and its item is hidden. *)
Lemma sweep_all_done docs st r d x :
  (r, d) ∈ docs → st.1 !! e_item d = Some x →
  (sweep docs st).2 !! r = None ∧ (sweep docs st).1 !! e_item d = Some (hide x).
Proof.
  revert st x. induction docs as [|doc docs IH]; intros st x Hin Hx.
  { by apply elem_of_nil in Hin. }
  rewrite sweep_all_cons. apply elem_of_cons in Hin as [<- | Hin].
  - destruct (sweep_one_done st r d x Hx) as [Hrec Hitem]. split.
    + by apply sweep_all_record_None.
    + apply sweep_all_item_hidden; [done | apply hide_hidden].
  - destruct (sweep_one_item st doc (e_item d)) as [Heq | (x' & Hx' & Heq)].
    + apply IH; [done | by rewrite Heq].
    + rewrite Hx in Hx'. injection Hx' as <-.
      destruct (IH (step st doc) (hide x) Hin Heq) as [Hrec Hitem].
      by rewrite hide_hide in Hitem.
Qed.

End NothingRefused.

End SweepFoldFacts.

(** ** The handlers are the fold *)

Lemma hide_listing_hidden l : l_hidden (hide_listing l) = true.
Proof. reflexivity. Qed.

Lemma hide_listing_id l : l_hidden l = true → hide_listing l = l.
Proof. destruct l; cbn; by intros ->. Qed.

Lemma hide_request_hidden r : r_hidden (hide_request r) = true.
Proof. reflexivity. Qed.

Lemma hide_request_id r : r_hidden r = true → hide_request r = r.
Proof. destruct r; cbn; by intros ->. Qed.

Lemma put_listing_sweep_same w : put_listing_sweep (listings w, listing_expirations w) w = w.
Proof. by destruct w. Qed.

Lemma put_request_sweep_same w : put_request_sweep (requests w, request_expirations w) w = w.
Proof. by destruct w. Qed.

Lemma sweep_listing_turn F doc w :
  sweep_listing F doc w =
  (Ok tt, put_listing_sweep (listing_turn F (listings w, listing_expirations w) doc) w).
Proof.
  unfold sweep_listing, listing_turn, sweep_one, can. unfold_stores. unfold_monad.
  cbn [fst snd]. destruct (F (ItemGet _ _)); cbn [negb].
  { by rewrite put_listing_sweep_same. }
  destruct (listings w !! e_item doc.2) as [l|]; [|by rewrite put_listing_sweep_same].
  destruct (l_hidden l); cbn [negb].
  - destruct (F (ExpDelete _ _)); cbn [negb]; [by rewrite put_listing_sweep_same|].
    by destruct w.
  - destruct (F (ItemHide _ _)); cbn [negb]; [by rewrite put_listing_sweep_same|].
    destruct (F (ExpDelete _ _)); cbn [negb]; by destruct w.
Qed.

Lemma sweep_request_turn F doc w :
  sweep_request F doc w =
  (Ok tt, put_request_sweep (request_turn F (requests w, request_expirations w) doc) w).
Proof.
  unfold sweep_request, request_turn, sweep_one, can. unfold_stores. unfold_monad.
  cbn [fst snd]. destruct (F (ItemGet _ _)); cbn [negb].
  { by rewrite put_request_sweep_same. }
  destruct (requests w !! e_item doc.2) as [l|]; [|by rewrite put_request_sweep_same].
  destruct (r_hidden l); cbn [negb].
  - destruct (F (ExpDelete _ _)); cbn [negb]; [by rewrite put_request_sweep_same|].
    by destruct w.
  - destruct (F (ItemHide _ _)); cbn [negb]; [by rewrite put_request_sweep_same|].
    destruct (F (ExpDelete _ _)); cbn [negb]; by destruct w.
Qed.

Lemma listing_loop F docs w :
  for_of docs (sweep_listing F) w =
  (Ok tt, put_listing_sweep (listing_turns F docs (listings w, listing_expirations w)) w).
Proof.
  revert w. induction docs as [|doc docs IH]; intros w.
  - cbn. by rewrite put_listing_sweep_same.
  - cbn [for_of]. unfold bind. rewrite sweep_listing_turn, IH. f_equal.
    unfold listing_turns. rewrite sweep_all_cons. fold (listing_turn F).
    by destruct (listing_turn F _ doc).
Qed.

Lemma request_loop F docs w :
  for_of docs (sweep_request F) w =
  (Ok tt, put_request_sweep (request_turns F docs (requests w, request_expirations w)) w).
Proof.
  revert w. induction docs as [|doc docs IH]; intros w.
  - cbn. by rewrite put_request_sweep_same.
  - cbn [for_of]. unfold bind. rewrite sweep_request_turn, IH. f_equal.
    unfold request_turns. rewrite sweep_all_cons. fold (request_turn F).
    by destruct (request_turn F _ doc).
Qed.

Lemma handleListingsExpired_fold F w :
  handleListingsExpired F w = (Ok tt, swept_listings F w).
Proof.
  unfold handleListingsExpired, swept_listings. unfold_stores.
  unfold try_catch, bind at 1, bind at 1, reach.
  destruct (F _); [done|]. unfold ret at 1, gets. cbn [expirations].
  destruct (records_expired _ _) as [|doc docs] eqn:Hdocs.
  - cbn. by rewrite put_listing_sweep_same.
  - by rewrite listing_loop.
Qed.

Lemma handleRequestsExpired_fold F w :
  handleRequestsExpired F w = (Ok tt, swept_requests F w).
Proof.
  unfold handleRequestsExpired, swept_requests. unfold_stores.
  unfold try_catch, bind at 1, bind at 1, reach.
  destruct (F _); [done|]. unfold ret at 1, gets. cbn [expirations].
  destruct (records_expired _ _) as [|doc docs] eqn:Hdocs.
  - cbn. by rewrite put_request_sweep_same.
  - by rewrite request_loop.
Qed.

Lemma cron_tick_fold F w :
  cron_tick F w = (Ok tt, swept_requests F (swept_listings F w)).
Proof.
  unfold cron_tick, try_catch, bind.
  by rewrite handleListingsExpired_fold, handleRequestsExpired_fold.
Qed.

Lemma elem_of_records_expired now m rid rec :
  (rid, rec) ∈ records_expired now m ↔ m !! rid = Some rec ∧ e_expireAt rec ≤ now.
Proof.
  unfold records_expired. rewrite list_elem_of_filter, elem_of_map_to_list. cbn. tauto.
Qed.

Lemma can_no_faults op i : can no_faults op i = true.
Proof. reflexivity. Qed.

(** What a tick leaves of the backlog when nothing is refused: records of
    missing items only. *)
Lemma swept_listings_settled w : settled_listings (swept_listings no_faults w).
Proof.
  intros r d Hrec Hexp. cbn in Hrec, Hexp |- *.
  apply sweep_all_record_Some in Hrec as Hrec0. cbn in Hrec0.
  destruct (listings w !! e_item d) as [x|] eqn:Hx.
  - assert ((r, d) ∈ records_expired (clock w) (listing_expirations w)) as Hin
      by by apply elem_of_records_expired.
    destruct (sweep_all_done l_hidden hide_listing hide_listing_hidden hide_listing_id
                (can no_faults (ItemGet KListing)) (can no_faults (ItemHide KListing))
                (can no_faults (ExpDelete KListing))
                (can_no_faults _) (can_no_faults _) (can_no_faults _)
                _ (listings w, listing_expirations w) r d x Hin Hx) as [Hgone _].
    unfold listing_turns in Hrec. congruence.
  - unfold listing_turns.
    apply sweep_all_item_None; [apply hide_listing_hidden | apply hide_listing_id | done].
Qed.

Lemma swept_requests_settled w : settled_requests (swept_requests no_faults w).
Proof.
  intros r d Hrec Hexp. cbn in Hrec, Hexp |- *.
  apply sweep_all_record_Some in Hrec as Hrec0. cbn in Hrec0.
  destruct (requests w !! e_item d) as [x|] eqn:Hx.
  - assert ((r, d) ∈ records_expired (clock w) (request_expirations w)) as Hin
      by by apply elem_of_records_expired.
    destruct (sweep_all_done r_hidden hide_request hide_request_hidden hide_request_id
                (can no_faults (ItemGet KRequest)) (can no_faults (ItemHide KRequest))
                (can no_faults (ExpDelete KRequest))
                (can_no_faults _) (can_no_faults _) (can_no_faults _)
                _ (requests w, request_expirations w) r d x Hin Hx) as [Hgone _].
    unfold request_turns in Hrec. congruence.
  - unfold request_turns.
    apply sweep_all_item_None; [apply hide_request_hidden | apply hide_request_id | done].
Qed.

(** On a settled collection a handler does nothing. *)
Lemma swept_listings_fixed F w : settled_listings w → swept_listings F w = w.
Proof.
  intros Hset. unfold swept_listings. destruct (F _); [done|].
  unfold listing_turns. rewrite sweep_all_skip; [apply put_listing_sweep_same|].
  intros r d [Hrec Hexp]%elem_of_records_expired. by apply (Hset r d).
Qed.

Lemma swept_requests_fixed F w : settled_requests w → swept_requests F w = w.
Proof.
  intros Hset. unfold swept_requests. destruct (F _); [done|].
  unfold request_turns. rewrite sweep_all_skip; [apply put_request_sweep_same|].
  intros r d [Hrec Hexp]%elem_of_records_expired. by apply (Hset r d).
Qed.

Lemma swept_requests_keeps_settled_listings F w :
  settled_listings w → settled_listings (swept_requests F w).
Proof. unfold swept_requests. by destruct (F _). Qed.

Lemma cron_tick_settles w :
  settled_listings (run (cron_tick no_faults) w) ∧
  settled_requests (run (cron_tick no_faults) w).
Proof.
  unfold run. rewrite cron_tick_fold. cbn [snd]. split.
  - apply swept_requests_keeps_settled_listings, swept_listings_settled.
  - apply swept_requests_settled.
Qed.

Lemma swept_listings_twice F w :
  swept_listings F (swept_listings F w) = swept_listings F w.
Proof.
  unfold swept_listings. destruct (F _) eqn:HF; rewrite ?HF; [done|].
  cbn. unfold listing_turns. set (docs := records_expired (clock w) (listing_expirations w)).
  set (st := (listings w, listing_expirations w)).
  set (st' := sweep_all _ _ _ _ _ docs st).
  replace (st'.1, st'.2) with st' by by destruct st'.
  assert (sweep_all l_hidden hide_listing (can F (ItemGet KListing)) (can F (ItemHide KListing))
            (can F (ExpDelete KListing)) (records_expired (clock w) st'.2) st' = st') as ->;
    [|done].
  apply sweep_all_again; [apply hide_listing_hidden | apply hide_listing_id |].
  intros r d [Hrec Hexp]%elem_of_records_expired. split; [|done].
  apply elem_of_records_expired. split; [|done].
  by apply sweep_all_record_Some in Hrec.
Qed.

Lemma swept_requests_twice F w :
  swept_requests F (swept_requests F w) = swept_requests F w.
Proof.
  unfold swept_requests. destruct (F _) eqn:HF; rewrite ?HF; [done|].
  cbn. unfold request_turns. set (docs := records_expired (clock w) (request_expirations w)).
  set (st := (requests w, request_expirations w)).
  set (st' := sweep_all _ _ _ _ _ docs st).
  replace (st'.1, st'.2) with st' by by destruct st'.
  assert (sweep_all r_hidden hide_request (can F (ItemGet KRequest)) (can F (ItemHide KRequest))
            (can F (ExpDelete KRequest)) (records_expired (clock w) st'.2) st' = st') as ->;
    [|done].
  apply sweep_all_again; [apply hide_request_hidden | apply hide_request_id |].
  intros r d [Hrec Hexp]%elem_of_records_expired. split; [|done].
  apply elem_of_records_expired. split; [|done].
  by apply sweep_all_record_Some in Hrec.
Qed.

(** The two handlers work on disjoint collections. *)
Lemma swept_listings_requests F w :
  swept_listings F (swept_requests F w) = swept_requests F (swept_listings F w).
Proof. unfold swept_listings, swept_requests. by destruct (F _), (F _). Qed.

(** C6.  A second tick right after a first one, with the stores refusing
    the same calls or none at all, returns normally, as the first did, and
    leaves every collection as the first tick left it. *)
Theorem sweep_twice_is_sweep_once F w :
  outcome (cron_tick F) w = Ok tt ∧
  outcome (cron_tick F) (run (cron_tick F) w) = Ok tt ∧
  run (cron_tick F) (run (cron_tick F) w) = run (cron_tick F) w.
Proof.
  unfold outcome, run. rewrite !cron_tick_fold. cbn [fst snd]. split; [done|]. split; [done|].
  by rewrite swept_listings_requests, swept_requests_twice, swept_listings_twice.
Qed.

(** C2.  When the stores refuse no call, one tick deletes every expired
    record whose Item exists and leaves that Item with [hidden = true] and its
    other fields as they were: the Item is given field by field, with the
    flag [true].  An Item that was hidden already is exactly as it was.  Both
    kinds. *)
Theorem sweep_hides_expired_items :
  (∀ w rid rec l,
     listing_expirations w !! rid = Some rec →
     e_expireAt rec ≤ clock w →
     listings w !! e_item rec = Some l →
     let w' := run (cron_tick no_faults) w in
     listing_expirations w' !! rid = None ∧
     listings w' !! e_item rec
       = Some (mkListing (l_author l) (l_name l) (l_meetup_location l) (l_image l)
                 (l_quantity l) (l_description l) (l_tags l) true) ∧
     (l_hidden l = true → listings w' !! e_item rec = Some l)) ∧
  (∀ w rid rec r,
     request_expirations w !! rid = Some rec →
     e_expireAt rec ≤ clock w →
     requests w !! e_item rec = Some r →
     let w' := run (cron_tick no_faults) w in
     request_expirations w' !! rid = None ∧
     requests w' !! e_item rec
       = Some (mkRequest (r_requester r) (r_name r) (r_quantity r) (r_image r)
                 (r_description r) true) ∧
     (r_hidden r = true → requests w' !! e_item rec = Some r)).
Proof.
  split.
  - intros w rid rec l Hrec Hexp Hl w'. subst w'. unfold run. rewrite cron_tick_fold.
    assert ((rid, rec) ∈ records_expired (clock w) (listing_expirations w)) as Hin
      by by apply elem_of_records_expired.
    destruct (sweep_all_done l_hidden hide_listing hide_listing_hidden hide_listing_id
                (can no_faults (ItemGet KListing)) (can no_faults (ItemHide KListing))
                (can no_faults (ExpDelete KListing))
                (can_no_faults _) (can_no_faults _) (can_no_faults _)
                _ (listings w, listing_expirations w) rid rec l Hin Hl) as [Hgone Hhid].
    cbn. unfold listing_turns. split; [done|]. split; [done|].
    intros Hh. by rewrite Hhid, hide_listing_id.
  - intros w rid rec r Hrec Hexp Hr w'. subst w'. unfold run. rewrite cron_tick_fold.
    assert ((rid, rec) ∈ records_expired (clock w) (request_expirations w)) as Hin
      by by apply elem_of_records_expired.
    destruct (sweep_all_done r_hidden hide_request hide_request_hidden hide_request_id
                (can no_faults (ItemGet KRequest)) (can no_faults (ItemHide KRequest))
                (can no_faults (ExpDelete KRequest))
                (can_no_faults _) (can_no_faults _) (can_no_faults _)
                _ (requests w, request_expirations w) rid rec r Hin Hr) as [Hgone Hhid].
    cbn. unfold request_turns. split; [done|]. split; [done|].
    intros Hh. by rewrite Hhid, hide_request_id.
Qed.

Lemma sweep_hides_expired_items_witness :
  listing_expirations (run (cron_tick no_faults) expired_bread_world) !! 1%nat = None ∧
  listings (run (cron_tick no_faults) expired_bread_world) !! 0%nat
    = Some (mkListing 7 "bread" "lobby" "img" 3 "fresh" ["vegan"] true).
Proof.
  destruct (proj1 sweep_hides_expired_items expired_bread_world 1%nat (mkExpire 0 100) bread)
    as (Hgone & Hhid & _).
  - vm_compute. reflexivity.
  - vm_compute. discriminate.
  - vm_compute. reflexivity.
  - split; [exact Hgone | exact Hhid].
Defined.

(** C9 (as amended).  A record whose Item is missing, expired or not, is
    kept by the tick, whatever the stores refuse: the sweep deletes a record
    only after it has fetched the Item.  Both kinds. *)
Theorem sweep_keeps_stale_records :
  (∀ F w rid rec,
     listing_expirations w !! rid = Some rec →
     listings w !! e_item rec = None →
     listing_expirations (run (cron_tick F) w) !! rid = Some rec) ∧
  (∀ F w rid rec,
     request_expirations w !! rid = Some rec →
     requests w !! e_item rec = None →
     request_expirations (run (cron_tick F) w) !! rid = Some rec).
Proof.
  split.
  - intros F w rid rec Hrec Hnone. unfold run. rewrite cron_tick_fold.
    unfold swept_requests, swept_listings.
    destruct (F (ExpGetAllExpired KRequest)), (F (ExpGetAllExpired KListing)); cbn; try done.
    all: unfold listing_turns; rewrite sweep_all_stale; [done|].
    all: intros d [Hd _]%elem_of_records_expired; cbn; congruence.
  - intros F w rid rec Hrec Hnone. unfold run. rewrite cron_tick_fold.
    unfold swept_requests, swept_listings.
    destruct (F (ExpGetAllExpired KRequest)), (F (ExpGetAllExpired KListing)); cbn; try done.
    all: unfold request_turns; rewrite sweep_all_stale; [done|].
    all: intros d [Hd _]%elem_of_records_expired; cbn; congruence.
Qed.

Lemma sweep_keeps_stale_records_witness :
  listing_expirations (run (cron_tick no_faults) stale_bread_world) !! 1%nat
  = Some (mkExpire 0 100).
Proof.
  apply (proj1 sweep_keeps_stale_records no_faults stale_bread_world 1%nat (mkExpire 0 100)).
  - vm_compute. reflexivity.
  - vm_compute. reflexivity.
Defined.

(** The stale record of a deleted Listing is still there after a tick. *)
Lemma sweep_stale_record_counterexample :
  ¬ (listing_expirations stale_bread_world !! 1%nat = Some (mkExpire 0 100) →
     e_expireAt (mkExpire 0 100) ≤ clock stale_bread_world →
     listings stale_bread_world !! e_item (mkExpire 0 100) = None →
     listing_expirations (run (cron_tick no_faults) stale_bread_world) !! 1%nat = None).
Proof.
  intros H. assert (Hgone := H). clear H.
  specialize (Hgone eq_refl).
  assert (e_expireAt (mkExpire 0 100) ≤ clock stale_bread_world) as Hle by (vm_compute; discriminate).
  specialize (Hgone Hle eq_refl). vm_compute in Hgone. discriminate Hgone.
Qed.

(** ** Offer acceptance *)

(** C5.  When the Offer exists, [acceptOffer] succeeds if the stores
    refuse no call; and whenever it succeeds, the Offer is accepted, its
    parent Request is hidden (other fields untouched), and every other Offer
    is as it was. *)
Theorem accept_offer_effect user oid w o :
  offers w !! oid = Some o →
  outcome (acceptOffer no_faults user oid) w = Ok "Accepted offer!" ∧
  ∀ F msg w',
    acceptOffer F user oid w = (Ok msg, w') →
    offers w' !! oid = Some (accept_offer o) ∧
    o_state (accept_offer o) = OfferAccepted ∧
    (∀ rq, requests w !! o_item o = Some rq →
           requests w' !! o_item o = Some (hide_request rq) ∧
           r_hidden (hide_request rq) = true) ∧
    (∀ oid', oid' ≠ oid → offers w' !! oid' = offers w !! oid').
Proof.
  intros Ho. split.
  - unfold outcome, acceptOffer. unfold_stores. unfold_monad. cbn. by rewrite Ho.
  - intros F msg w'. unfold acceptOffer. unfold_stores. unfold_monad.
    destruct (F (OfferGet oid)); [discriminate|]. rewrite Ho.
    destruct (F (ItemHide _ _)); [discriminate|].
    destruct (F (OfferAccept _)); [discriminate|].
    intros [= _ <-]. cbn. split; [by rewrite lookup_alter_eq, Ho|]. split; [done|]. split.
    + intros rq Hrq. by rewrite lookup_alter_eq, Hrq.
    + intros oid' Hne. by rewrite lookup_alter_ne.
Qed.

Lemma accept_offer_effect_witness :
  outcome (acceptOffer no_faults 1 2) soup_world = Ok "Accepted offer!" ∧
  offers (run (acceptOffer no_faults 1 2) soup_world) !! 2%nat
    = Some (mkOffer 8 0 "gate" None None OfferAccepted) ∧
  requests (run (acceptOffer no_faults 1 2) soup_world) !! 0%nat = Some (hide_request soup) ∧
  offers (run (acceptOffer no_faults 1 2) soup_world) !! 3%nat
    = Some (mkOffer 9 0 "porch" None None OfferActive).
Proof.
  destruct (accept_offer_effect 1%nat 2%nat soup_world
              (mkOffer 8 0 "gate" None None OfferActive)) as [Hok Heffect].
  - vm_compute. reflexivity.
  - destruct (Heffect no_faults "Accepted offer!" (run (acceptOffer no_faults 1 2) soup_world))
      as (Haccepted & _ & Hparent & Hothers).
    + vm_compute. reflexivity.
    + split; [exact Hok|]. split; [exact Haccepted|]. split.
      * apply (Hparent soup). vm_compute. reflexivity.
      * rewrite (Hothers 3%nat) by discriminate. vm_compute. reflexivity.
Defined.

(** ** Claiming *)



(** ** Cascade deletion *)

Lemma fail_on_one x op : fail_on [x] op = bool_decide (op = x).
Proof. unfold fail_on. apply bool_decide_ext. rewrite elem_of_cons, elem_of_nil. tauto. Qed.

(** What the expiration cleanup of [deleteRequest] leaves, with the stores
    reachable and one record per item: no record of the Request. *)
Lemma request_cleanup_complete oid w :
  one_record_per_item (request_expirations w) →
  ∃ m, try_catch
         (RequestExp <- Request_Expiring.getExpireByItem no_faults oid;;
          match RequestExp with
          | Some (rid, _) => Request_Expiring.delete no_faults rid
          | None => ret tt
          end)
         (λ error, ret tt) w
       = (Ok tt, with_request_expirations (λ _, m) w) ∧
       ∀ rid d, m !! rid = Some d → e_item d ≠ oid.
Proof.
  intros Hone. unfold_stores. unfold_monad. cbn.
  destruct (head (records_of_item oid (request_expirations w))) as [[rid0 d0]|] eqn:Hhead.
  - exists (delete rid0 (request_expirations w)). split; [done|].
    apply records_of_item_some in Hhead as [Hd0 Hitem0].
    intros rid d [Hne Hd]%lookup_delete_Some Hitem. apply Hne.
    apply (Hone rid0 rid d0 d); congruence.
  - exists (request_expirations w). split; [by destruct w|].
    by apply records_of_item_none.
Qed.

Lemma assertAuthor_ok F oid user w rq :
  F (ItemAssertAuthor KRequest oid) = false →
  requests w !! oid = Some rq → r_requester rq = user →
  Requesting.assertAuthor F oid user w = (Ok tt, w).
Proof.
  intros HF Hrq Hauthor. unfold_stores. unfold_monad. rewrite HF, Hrq.
  by rewrite decide_True.
Qed.

(** Whatever the stores refuse, the expiration cleanup of [deleteRequest]
    returns normally and touches the request expirations only. *)
Lemma request_cleanup_any F oid w :
  ∃ m, try_catch
         (RequestExp <- Request_Expiring.getExpireByItem F oid;;
          match RequestExp with
          | Some (rid, _) => Request_Expiring.delete F rid
          | None => ret tt
          end)
         (λ error, ret tt) w
       = (Ok tt, with_request_expirations (λ _, m) w).
Proof.
  unfold_stores. unfold_monad. cbn.
  destruct (F (ExpGetByItem _ _)); [exists (request_expirations w); by destruct w|].
  destruct (head _) as [[rid0 d0]|]; [|exists (request_expirations w); by destruct w].
  destruct (F (ExpDelete _ _)); [exists (request_expirations w); by destruct w|].
  by exists (delete rid0 (request_expirations w)).
Qed.

Lemma offers_removed item (m : gmap nat OfferDoc) k o :
  filter (λ p, o_item p.2 ≠ item) m !! k = Some o → o_item o ≠ item.
Proof. by intros [_ Hne]%map_lookup_filter_Some. Qed.

Lemma deleteRequest_steps F user oid w w1 :
  Requesting.assertAuthor F oid user w = (Ok tt, w) →
  try_catch
    (RequestExp <- Request_Expiring.getExpireByItem F oid;;
     match RequestExp with
     | Some (rid, _) => Request_Expiring.delete F rid
     | None => ret tt
     end)
    (λ error, ret tt) w = (Ok tt, w1) →
  deleteRequest F user oid w
  = (Offering.removeAllItemOffers F oid;; Requesting.delete F oid) w1.
Proof.
  intros Hassert Hclean. unfold deleteRequest. unfold bind at 1. rewrite Hassert. cbn [fst snd].
  unfold bind at 1. by rewrite Hclean.
Qed.

(** What the cleanup leaves under any fault plan: it returns normally, and
    when neither the lookup nor the delete of the record is refused, and there
    is one record per item, no record of the Request. *)
Lemma request_cleanup_cases F oid w :
  one_record_per_item (request_expirations w) →
  ∃ m, try_catch
         (RequestExp <- Request_Expiring.getExpireByItem F oid;;
          match RequestExp with
          | Some (rid, _) => Request_Expiring.delete F rid
          | None => ret tt
          end)
         (λ error, ret tt) w
       = (Ok tt, with_request_expirations (λ _, m) w) ∧
       (F (ExpGetByItem KRequest oid) = false →
        (∀ rid, F (ExpDelete KRequest rid) = false) →
        ∀ rid d, m !! rid = Some d → e_item d ≠ oid).
Proof.
  intros Hone. unfold_stores. unfold_monad. cbn.
  destruct (F (ExpGetByItem _ _)).
  { exists (request_expirations w). split; [by destruct w | done]. }
  destruct (head (records_of_item oid (request_expirations w))) as [[rid0 d0]|] eqn:Hhead.
  - destruct (F (ExpDelete KRequest rid0)) eqn:Hdel.
    + exists (request_expirations w). split; [by destruct w|].
      intros _ Hall. by rewrite Hall in Hdel.
    + exists (delete rid0 (request_expirations w)). split; [done|].
      apply records_of_item_some in Hhead as [Hd0 Hitem0].
      intros _ _ rid d [Hne Hd]%lookup_delete_Some Hitem. apply Hne.
      apply (Hone rid0 rid d0 d); congruence.
  - exists (request_expirations w). split; [by destruct w|].
    intros _ _. by apply records_of_item_none.
Qed.

(** C4 (as amended).  [deleteRequest] by the author, on a store with one
    expiration record per item.  When the stores refuse no call it succeeds,
    whether or not the Request has a record, and leaves no record and no Offer
    of the Request, and no Request.  Every successful run, under any fault
    plan, leaves no Offer of the Request and no Request; it leaves no record
    of the Request when the expiration store has refused neither the lookup
    nor the delete of the record.  The Offers go first: when the store
    refuses the delete of the Request, its Offers are gone already, and when
    it refuses the removal of the Offers, the Request is not deleted. *)
Theorem deleteRequest_cascade user oid w rq :
  requests w !! oid = Some rq →
  r_requester rq = user →
  one_record_per_item (request_expirations w) →
  (outcome (deleteRequest no_faults user oid) w = Ok tt ∧
   (∀ rid d, request_expirations (run (deleteRequest no_faults user oid) w) !! rid = Some d →
             e_item d ≠ oid) ∧
   (∀ k o, offers (run (deleteRequest no_faults user oid) w) !! k = Some o → o_item o ≠ oid) ∧
   requests (run (deleteRequest no_faults user oid) w) !! oid = None) ∧
  (∀ F w',
     deleteRequest F user oid w = (Ok tt, w') →
     (∀ k o, offers w' !! k = Some o → o_item o ≠ oid) ∧
     requests w' !! oid = None ∧
     (F (ExpGetByItem KRequest oid) = false →
      (∀ rid, F (ExpDelete KRequest rid) = false) →
      ∀ rid d, request_expirations w' !! rid = Some d → e_item d ≠ oid)) ∧
  (outcome (deleteRequest (fail_on [ItemDelete KRequest oid]) user oid) w
     = Err (StoreFailure (ItemDelete KRequest oid)) ∧
   (∀ k o, offers (run (deleteRequest (fail_on [ItemDelete KRequest oid]) user oid) w) !! k
           = Some o → o_item o ≠ oid) ∧
   requests (run (deleteRequest (fail_on [ItemDelete KRequest oid]) user oid) w) !! oid
     = Some rq) ∧
  (outcome (deleteRequest (fail_on [OfferRemoveAll oid]) user oid) w
     = Err (StoreFailure (OfferRemoveAll oid)) ∧
   offers (run (deleteRequest (fail_on [OfferRemoveAll oid]) user oid) w) = offers w ∧
   requests (run (deleteRequest (fail_on [OfferRemoveAll oid]) user oid) w) !! oid = Some rq).
Proof.
  intros Hrq Hauthor Hone. split; [|split; [|split]].
  - destruct (request_cleanup_complete oid w Hone) as (m & Hclean & Hm).
    unfold outcome, run.
    rewrite (deleteRequest_steps no_faults user oid w _
               (assertAuthor_ok no_faults oid user w rq eq_refl Hrq Hauthor) Hclean).
    unfold_stores. unfold_monad. cbn. split; [done|]. split; [done|]. split.
    + intros k o. apply offers_removed.
    + apply lookup_delete_eq.
  - intros F w' Hrun.
    destruct (F (ItemAssertAuthor KRequest oid)) eqn:Hassert.
    { revert Hrun. unfold deleteRequest. unfold_stores. unfold_monad. by rewrite Hassert. }
    destruct (request_cleanup_cases F oid w Hone) as (m & Hclean & Hm).
    rewrite (deleteRequest_steps F user oid w _
               (assertAuthor_ok F oid user w rq Hassert Hrq Hauthor) Hclean) in Hrun.
    clear Hclean. revert Hrun. unfold_stores. unfold_monad.
    destruct (F (OfferRemoveAll oid)); [discriminate|].
    destruct (F (ItemDelete KRequest oid)); [discriminate|].
    intros [= <-]. cbn. split; [|split].
    + intros k o. apply offers_removed.
    + apply lookup_delete_eq.
    + exact Hm.
  - destruct (request_cleanup_any (fail_on [ItemDelete KRequest oid]) oid w) as (m & Hclean).
    unfold outcome, run.
    rewrite (deleteRequest_steps _ user oid w _
               (assertAuthor_ok _ oid user w rq eq_refl Hrq Hauthor) Hclean).
    unfold_stores. unfold_monad. rewrite !fail_on_one.
    rewrite bool_decide_eq_false_2 by discriminate. rewrite bool_decide_eq_true_2 by done.
    cbn. split; [done|]. split; [|done]. intros k o. apply offers_removed.
  - destruct (request_cleanup_any (fail_on [OfferRemoveAll oid]) oid w) as (m & Hclean).
    unfold outcome, run.
    rewrite (deleteRequest_steps _ user oid w _
               (assertAuthor_ok _ oid user w rq eq_refl Hrq Hauthor) Hclean).
    unfold_stores. unfold_monad. rewrite !fail_on_one.
    rewrite bool_decide_eq_true_2 by done. cbn. done.
Qed.

Lemma deleteRequest_cascade_witness :
  outcome (deleteRequest no_faults 1 0) soup_world = Ok tt ∧
  offers (run (deleteRequest no_faults 1 0) soup_world) = ∅ ∧
  request_expirations (run (deleteRequest no_faults 1 0) soup_world) = ∅ ∧
  requests (run (deleteRequest no_faults 1 0) soup_world) !! 0%nat = None.
Proof.
  destruct (deleteRequest_cascade 1%nat 0%nat soup_world soup) as [(Hok & _ & _ & Hgone) _].
  - vm_compute. reflexivity.
  - reflexivity.
  - apply reachable_records_unique. unfold soup_world.
    do 2 apply reachable_offer. apply reachable_core, reachable_init.
  - split; [exact Hok|]. split; [vm_compute; reflexivity|].
    split; [vm_compute; reflexivity | exact Hgone].
Defined.

(** The cleanup of the record sits in its own [try]/[catch]: when the
    expiration store refuses the delete of the record, the route still
    succeeds and deletes the Request, and the record of the Request is still
    there.  The claim without the proviso fails on this call. *)
Lemma deleteRequest_record_stays_counterexample :
  ¬ (requests soup_world !! 0%nat = Some soup →
     r_requester soup = 1%nat →
     outcome (deleteRequest (fail_on [ExpDelete KRequest 1]) 1 0) soup_world = Ok tt →
     ∀ rid d,
       request_expirations (run (deleteRequest (fail_on [ExpDelete KRequest 1]) 1 0) soup_world)
         !! rid = Some d →
       e_item d ≠ 0%nat).
Proof.
  intros H.
  assert (requests soup_world !! 0%nat = Some soup) as Hrq by (vm_compute; reflexivity).
  assert (outcome (deleteRequest (fail_on [ExpDelete KRequest 1]) 1 0) soup_world = Ok tt)
    as Hok by (vm_compute; reflexivity).
  apply (H Hrq eq_refl Hok 1%nat (mkExpire 0 300)).
  - vm_compute. reflexivity.
  - reflexivity.
Qed.

(** * Further properties *)

(** ** More on the sweep loop *)

Section SweepFoldMore.

Context {D : Type}.
Variable hidden : D → bool.
Variable hide : D → D.
Hypothesis hide_hidden : ∀ d, hidden (hide d) = true.
Hypothesis hide_id : ∀ d, hidden d = true → hide d = d.

Variables get_ok hide_ok del_ok : ObjectId → bool.

Local Abbreviation step := (sweep_one hidden hide get_ok hide_ok del_ok).
Local Abbreviation sweep := (sweep_all hidden hide get_ok hide_ok del_ok).

(** An item no record of the batch points at is not looked at. *)
Lemma sweep_all_item_untouched docs st i :
  (∀ r d, (r, d) ∈ docs → e_item d ≠ i) → (sweep docs st).1 !! i = st.1 !! i.
Proof.
  revert st. induction docs as [|[r d] docs IH]; intros st Hnot; [done|].
  rewrite sweep_all_cons, IH.
  - unfold sweep_one. cbn [fst snd]. destruct (get_ok _); [|done].
    destruct (st.1 !! e_item d) as [x|]; [|done].
    destruct (negb (hidden x)); [|done]. destruct (hide_ok _); [|done].
    cbn [fst]. apply lookup_alter_ne. apply (Hnot r d), list_elem_of_here.
  - intros r' d' Hin. apply (Hnot r' d'). by apply list_elem_of_further.
Qed.

(** A record that is not in the batch is not deleted. *)
Lemma sweep_all_record_untouched docs st r :
  (∀ d, (r, d) ∉ docs) → (sweep docs st).2 !! r = st.2 !! r.
Proof.
  intros Hnot.
  destruct (sweep_all_record hidden hide get_ok hide_ok del_ok docs st r)
    as [Heq | (_ & d & Hin & _)]; [done|].
  by destruct (Hnot d).
Qed.

Local Abbreviation acts := (sweep_acts hidden get_ok hide_ok).

Lemma sweep_one_acts st doc :
  step st doc =
  if acts st doc
  then (alter hide (e_item doc.2) st.1, if del_ok doc.1 then delete doc.1 st.2 else st.2)
  else st.
Proof.
  unfold sweep_one, sweep_acts. destruct (get_ok _); [|done]. cbn [andb].
  destruct (st.1 !! e_item doc.2) as [d|] eqn:Hd; [|done].
  destruct (hidden d) eqn:Hh; cbn [negb orb].
  - f_equal. apply map_eq. intros i. destruct (decide (e_item doc.2 = i)) as [<-|Hne].
    + rewrite lookup_alter_eq, Hd. cbn. by rewrite hide_id.
    + by rewrite lookup_alter_ne.
  - by destruct (hide_ok _), st.
Qed.

Lemma acts_after st a b : acts (step st a) b = acts st b.
Proof.
  rewrite (sweep_one_acts st a). destruct (acts st a) eqn:Ha; [|done].
  unfold sweep_acts in *. cbn [fst]. destruct (get_ok (e_item b.2)); [|done]. cbn [andb].
  destruct (decide (e_item a.2 = e_item b.2)) as [Heq|Hne].
  - rewrite <- Heq, lookup_alter_eq.
    destruct (get_ok (e_item a.2)); [|done]. cbn [andb] in Ha.
    destruct (st.1 !! e_item a.2) as [d|]; [|done]. cbn. by rewrite hide_hidden.
  - by rewrite lookup_alter_ne.
Qed.

Lemma alter_hide_swap (m : gmap nat D) i j :
  alter hide i (alter hide j m) = alter hide j (alter hide i m).
Proof.
  apply map_eq. intros k.
  destruct (decide (i = k)) as [->|Hik], (decide (j = k)) as [->|Hjk];
    rewrite ?lookup_alter_eq, ?lookup_alter_ne, ?lookup_alter_eq, ?lookup_alter_ne by done;
    done.
Qed.

Lemma deletes_swap (m : gmap nat ExpireDoc) (b1 b2 : bool) i j :
  (if b1 then delete i (if b2 then delete j m else m) else (if b2 then delete j m else m)) =
  (if b2 then delete j (if b1 then delete i m else m) else (if b1 then delete i m else m)).
Proof. destruct b1, b2; try done. apply delete_delete. Qed.

(** Two turns can be taken in either order. *)
Lemma sweep_one_swap st a b : step (step st a) b = step (step st b) a.
Proof.
  rewrite (sweep_one_acts (step st a) b), (sweep_one_acts (step st b) a), !acts_after.
  rewrite (sweep_one_acts st a), (sweep_one_acts st b).
  destruct (acts st a), (acts st b); try done. cbn [fst snd].
  by rewrite alter_hide_swap, deletes_swap.
Qed.

(** The loop gives the same collections for every order of the batch. *)
Lemma sweep_all_permutation docs docs' st :
  docs ≡ₚ docs' → sweep docs st = sweep docs' st.
Proof.
  intros Hperm. revert st.
  induction Hperm as [|doc docs docs' _ IH|a b docs|docs1 docs2 docs3 _ IH12 _ IH23]; intros st.
  - done.
  - rewrite !sweep_all_cons. apply IH.
  - rewrite !sweep_all_cons. by rewrite sweep_one_swap.
  - by rewrite IH12.
Qed.

End SweepFoldMore.

(** ** More on the sweep ([api/index.ts]) *)

Lemma can_true F op i : F (op i) = false → can F op i = true.
Proof. unfold can. by intros ->. Qed.

Lemma swept_listings_lookup F w i :
  listings (run (cron_tick F) w) !! i = listings (swept_listings F w) !! i.
Proof. unfold run. rewrite cron_tick_fold. unfold swept_requests. by destruct (F _). Qed.

Lemma swept_listing_records_lookup F w r :
  listing_expirations (run (cron_tick F) w) !! r = listing_expirations (swept_listings F w) !! r.
Proof. unfold run. rewrite cron_tick_fold. unfold swept_requests. by destruct (F _). Qed.

Lemma swept_requests_lookup F w i :
  requests (run (cron_tick F) w) !! i = requests (swept_requests F w) !! i.
Proof.
  unfold run. rewrite cron_tick_fold. unfold swept_requests, swept_listings.
  by destruct (F (ExpGetAllExpired KRequest)), (F (ExpGetAllExpired KListing)).
Qed.

Lemma swept_request_records_lookup F w r :
  request_expirations (run (cron_tick F) w) !! r = request_expirations (swept_requests F w) !! r.
Proof.
  unfold run. rewrite cron_tick_fold. unfold swept_requests, swept_listings.
  by destruct (F (ExpGetAllExpired KRequest)), (F (ExpGetAllExpired KListing)).
Qed.

Lemma tick_spares_listing F w i :
  (∀ rid rec, listing_expirations w !! rid = Some rec → e_item rec = i →
              clock w < e_expireAt rec) →
  listings (run (cron_tick F) w) !! i = listings w !! i.
Proof.
  intros Hlater. rewrite swept_listings_lookup.
  unfold swept_listings. destruct (F _); [done|]. cbn. unfold listing_turns.
  rewrite sweep_all_item_untouched; [done|].
  intros r d [Hd Hle]%elem_of_records_expired Hitem. specialize (Hlater r d Hd Hitem). lia.
Qed.

Lemma tick_spares_request F w i :
  (∀ rid rec, request_expirations w !! rid = Some rec → e_item rec = i →
              clock w < e_expireAt rec) →
  requests (run (cron_tick F) w) !! i = requests w !! i.
Proof.
  intros Hlater. rewrite swept_requests_lookup.
  unfold swept_requests. destruct (F _); [done|]. cbn. unfold request_turns.
  rewrite sweep_all_item_untouched; [done|].
  intros r d [Hd Hle]%elem_of_records_expired Hitem. specialize (Hlater r d Hd Hitem). lia.
Qed.

(** X1.  One record's trouble is its own.  Whatever the stores refuse for
    other records, an expired record whose own calls go through (the batch
    query, the fetch and the hiding of its Item, its own delete) is deleted,
    and its Item is left with [hidden = true] and its other fields as they
    were.  Both kinds. *)
Theorem sweep_isolates_failures :
  (∀ F w rid rec l,
     listing_expirations w !! rid = Some rec →
     e_expireAt rec ≤ clock w →
     listings w !! e_item rec = Some l →
     F (ExpGetAllExpired KListing) = false →
     F (ItemGet KListing (e_item rec)) = false →
     F (ItemHide KListing (e_item rec)) = false →
     F (ExpDelete KListing rid) = false →
     listing_expirations (run (cron_tick F) w) !! rid = None ∧
     listings (run (cron_tick F) w) !! e_item rec
       = Some (mkListing (l_author l) (l_name l) (l_meetup_location l) (l_image l)
                 (l_quantity l) (l_description l) (l_tags l) true)) ∧
  (∀ F w rid rec r,
     request_expirations w !! rid = Some rec →
     e_expireAt rec ≤ clock w →
     requests w !! e_item rec = Some r →
     F (ExpGetAllExpired KRequest) = false →
     F (ItemGet KRequest (e_item rec)) = false →
     F (ItemHide KRequest (e_item rec)) = false →
     F (ExpDelete KRequest rid) = false →
     request_expirations (run (cron_tick F) w) !! rid = None ∧
     requests (run (cron_tick F) w) !! e_item rec
       = Some (mkRequest (r_requester r) (r_name r) (r_quantity r) (r_image r)
                 (r_description r) true)).
Proof.
  split.
  - intros F w rid rec l Hrec Hexp Hl Hall Hget Hhide Hdel.
    rewrite swept_listing_records_lookup, swept_listings_lookup.
    unfold swept_listings. rewrite Hall. cbn. unfold listing_turns.
    assert ((rid, rec) ∈ records_expired (clock w) (listing_expirations w)) as Hin
      by by apply elem_of_records_expired.
    split.
    + eapply (sweep_all_deleted l_hidden hide_listing hide_listing_hidden);
        [exact Hin | by apply can_true | by apply can_true | exact Hl | right; by apply can_true].
    + eapply (sweep_all_hidden_after l_hidden hide_listing hide_listing_hidden hide_listing_id);
        [exact Hin | by apply can_true | by apply can_true | exact Hl].
  - intros F w rid rec r Hrec Hexp Hr Hall Hget Hhide Hdel.
    rewrite swept_request_records_lookup, swept_requests_lookup.
    unfold swept_requests. rewrite Hall. cbn. unfold request_turns.
    assert ((rid, rec) ∈ records_expired (clock w) (request_expirations w)) as Hin
      by by apply elem_of_records_expired.
    split.
    + eapply (sweep_all_deleted r_hidden hide_request hide_request_hidden);
        [exact Hin | by apply can_true | by apply can_true | exact Hr | right; by apply can_true].
    + eapply (sweep_all_hidden_after r_hidden hide_request hide_request_hidden hide_request_id);
        [exact Hin | by apply can_true | by apply can_true | exact Hr].
Qed.

Lemma sweep_isolates_failures_witness :
  listings (run (cron_tick refuse_bread_fetch) two_listings_world) !! 0%nat = Some bread ∧
  listing_expirations (run (cron_tick refuse_bread_fetch) two_listings_world) !! 3%nat = None ∧
  listings (run (cron_tick refuse_bread_fetch) two_listings_world) !! 2%nat
    = Some (mkListing 7 "rice" "porch" "img" 5 "dry" [] true).
Proof.
  split; [vm_compute; reflexivity|].
  apply (proj1 sweep_isolates_failures refuse_bread_fetch two_listings_world 3%nat
           (mkExpire 2 150) rice).
  - vm_compute. reflexivity.
  - vm_compute. discriminate.
  - vm_compute. reflexivity.
  - vm_compute. reflexivity.
  - vm_compute. reflexivity.
  - vm_compute. reflexivity.
  - vm_compute. reflexivity.
Defined.

(** X2.  The sweep takes nothing before its time.  Under every fault plan,
    a record whose instant is still ahead of the clock is there after the
    tick, and an Item that no expired record points at is exactly as it
    was.  Both kinds. *)
Theorem sweep_spares_what_has_not_expired :
  (∀ F w rid rec,
     listing_expirations w !! rid = Some rec →
     clock w < e_expireAt rec →
     listing_expirations (run (cron_tick F) w) !! rid = Some rec) ∧
  (∀ F w i,
     (∀ rid rec, listing_expirations w !! rid = Some rec → e_item rec = i →
                 clock w < e_expireAt rec) →
     listings (run (cron_tick F) w) !! i = listings w !! i) ∧
  (∀ F w rid rec,
     request_expirations w !! rid = Some rec →
     clock w < e_expireAt rec →
     request_expirations (run (cron_tick F) w) !! rid = Some rec) ∧
  (∀ F w i,
     (∀ rid rec, request_expirations w !! rid = Some rec → e_item rec = i →
                 clock w < e_expireAt rec) →
     requests (run (cron_tick F) w) !! i = requests w !! i).
Proof.
  split; [|split; [|split]].
  - intros F w rid rec Hrec Hlater. rewrite swept_listing_records_lookup.
    unfold swept_listings. destruct (F _); [done|]. cbn. unfold listing_turns.
    rewrite sweep_all_record_untouched; [done|].
    intros d [Hd Hle]%elem_of_records_expired. cbn in Hd. simplify_eq. lia.
  - intros F w i. apply tick_spares_listing.
  - intros F w rid rec Hrec Hlater. rewrite swept_request_records_lookup.
    unfold swept_requests. destruct (F _); [done|]. cbn. unfold request_turns.
    rewrite sweep_all_record_untouched; [done|].
    intros d [Hd Hle]%elem_of_records_expired. cbn in Hd. simplify_eq. lia.
  - intros F w i. apply tick_spares_request.
Qed.

Lemma sweep_spares_what_has_not_expired_witness :
  listing_expirations (run (cron_tick no_faults) fresh_bread_world) !! 1%nat
    = Some (mkExpire 0 300) ∧
  listings (run (cron_tick no_faults) fresh_bread_world) !! 0%nat = Some bread.
Proof.
  split.
  - apply (proj1 sweep_spares_what_has_not_expired no_faults fresh_bread_world 1%nat
             (mkExpire 0 300)).
    + vm_compute. reflexivity.
    + vm_compute. reflexivity.
  - rewrite (proj1 (proj2 sweep_spares_what_has_not_expired) no_faults fresh_bread_world 0%nat).
    + vm_compute. reflexivity.
    + intros rid rec Hrec _.
      assert (listing_expirations fresh_bread_world = {[ 1%nat := mkExpire 0 300 ]}) as Hrecs
        by (vm_compute; reflexivity).
      rewrite Hrecs in Hrec. apply lookup_singleton_Some in Hrec as [_ <-].
      vm_compute. reflexivity.
Defined.

(** X3.  All a tick ever does, under every fault plan: it sets the hidden
    flag of Items and removes expiration records.  No Item is deleted,
    created or edited in another field, no record is created or changed,
    and Offers, Claims, tags, ids and the clock are as they were. *)
Theorem sweep_only_hides_and_deletes_records F w :
  let w' := run (cron_tick F) w in
  (∀ i, listings w' !! i = listings w !! i ∨
        ∃ l, listings w !! i = Some l ∧ listings w' !! i = Some (hide_listing l)) ∧
  (∀ i, requests w' !! i = requests w !! i ∨
        ∃ r, requests w !! i = Some r ∧ requests w' !! i = Some (hide_request r)) ∧
  (∀ rid rec, listing_expirations w' !! rid = Some rec →
              listing_expirations w !! rid = Some rec) ∧
  (∀ rid rec, request_expirations w' !! rid = Some rec →
              request_expirations w !! rid = Some rec) ∧
  offers w' = offers w ∧ claims w' = claims w ∧ tagged w' = tagged w ∧
  next_oid w' = next_oid w ∧ clock w' = clock w.
Proof.
  cbv zeta. split; [|split; [|split; [|split]]].
  - intros i. rewrite swept_listings_lookup. unfold swept_listings.
    destruct (F _); [by left|]. cbn. unfold listing_turns.
    apply (sweep_all_item l_hidden hide_listing hide_listing_hidden hide_listing_id).
  - intros i. rewrite swept_requests_lookup. unfold swept_requests.
    destruct (F _); [by left|]. cbn. unfold request_turns.
    apply (sweep_all_item r_hidden hide_request hide_request_hidden hide_request_id).
  - intros rid rec. rewrite swept_listing_records_lookup. unfold swept_listings.
    destruct (F _); [done|]. cbn. unfold listing_turns. apply sweep_all_record_Some.
  - intros rid rec. rewrite swept_request_records_lookup. unfold swept_requests.
    destruct (F _); [done|]. cbn. unfold request_turns. apply sweep_all_record_Some.
  - unfold run. rewrite cron_tick_fold. unfold swept_requests, swept_listings.
    by destruct (F (ExpGetAllExpired KRequest)), (F (ExpGetAllExpired KListing)).
Qed.

(** X4.  The order in which the store returns the expired records does not
    matter: the loop of either handler leaves the same collections for every
    order of the same batch, whatever the stores refuse. *)
Theorem sweep_order_is_irrelevant F docs docs' w :
  docs ≡ₚ docs' →
  for_of docs (sweep_listing F) w = for_of docs' (sweep_listing F) w ∧
  for_of docs (sweep_request F) w = for_of docs' (sweep_request F) w.
Proof.
  intros Hperm. rewrite !listing_loop, !request_loop. unfold listing_turns, request_turns.
  by rewrite (sweep_all_permutation l_hidden hide_listing hide_listing_hidden hide_listing_id
                _ _ _ docs docs' _ Hperm),
             (sweep_all_permutation r_hidden hide_request hide_request_hidden hide_request_id
                _ _ _ docs docs' _ Hperm).
Qed.

Lemma sweep_order_is_irrelevant_witness :
  for_of [(1%nat, mkExpire 0 100); (3%nat, mkExpire 2 150)] (sweep_listing refuse_bread_fetch)
    two_listings_world
  = for_of [(3%nat, mkExpire 2 150); (1%nat, mkExpire 0 100)] (sweep_listing refuse_bread_fetch)
      two_listings_world.
Proof.
  apply (sweep_order_is_irrelevant refuse_bread_fetch
           [(1%nat, mkExpire 0 100); (3%nat, mkExpire 2 150)]
           [(3%nat, mkExpire 2 150); (1%nat, mkExpire 0 100)] two_listings_world).
  apply perm_swap.
Defined.

(** ** More on the creation saga ([server/routes.ts]) *)

(** X5.  A creation in which the stores refuse neither the Item, nor its
    record, nor any tag returns the new Item, stores it visible under a
    fresh id with the fields given, stores an expiration record for it with
    the date given, and (for a Listing) appends its tags in order.  The
    other collections are as they were. *)
Theorem creation_stores_item_and_record :
  (∀ F user name meetup_location image quantity expireDate description tags w,
     F (ItemCreate KListing) = false →
     F (ExpAllocate KListing (next_oid w)) = false →
     Forall (λ tag, F (TagItem (next_oid w) tag) = false) tags →
     let doc := mkListing user name meetup_location image quantity description tags false in
     let m := addListing F user name meetup_location image quantity expireDate description tags in
     outcome m w = Ok (next_oid w, doc) ∧
     listings (run m w) = <[next_oid w := doc]> (listings w) ∧
     (∃ rid, listing_expirations (run m w) !! rid = Some (mkExpire (next_oid w) expireDate)) ∧
     tagged (run m w) = (tagged w ++ (pair (next_oid w) <$> tags))%list ∧
     requests (run m w) = requests w ∧
     request_expirations (run m w) = request_expirations w ∧
     offers (run m w) = offers w ∧ claims (run m w) = claims w) ∧
  (∀ F user name quantity needBy image description w,
     F (ItemCreate KRequest) = false →
     F (ExpAllocate KRequest (next_oid w)) = false →
     let doc := mkRequest user name quantity image description false in
     let m := addRequest F user name quantity needBy image description in
     outcome m w = Ok (next_oid w, doc) ∧
     requests (run m w) = <[next_oid w := doc]> (requests w) ∧
     (∃ rid, request_expirations (run m w) !! rid = Some (mkExpire (next_oid w) needBy)) ∧
     listings (run m w) = listings w ∧
     listing_expirations (run m w) = listing_expirations w ∧
     offers (run m w) = offers w ∧ claims (run m w) = claims w ∧ tagged (run m w) = tagged w).
Proof.
  split.
  - intros * Hcreate Halloc Htags. cbv zeta.
    unfold outcome, run, addListing. unfold_stores. unfold_monad.
    rewrite Hcreate. cbn [fst snd]. rewrite Halloc.
    destruct (head _) as [[rid ?]|]; cbn [expirations with_expirations];
      rewrite tag_loop_ok by done; cbn;
      (repeat split; try done; eexists; apply lookup_insert_eq).
  - intros * Hcreate Halloc. cbv zeta.
    unfold outcome, run, addRequest. unfold_stores. unfold_monad.
    rewrite Hcreate. cbn [fst snd]. rewrite Halloc.
    destruct (head _) as [[rid ?]|]; cbn;
      (repeat split; try done; eexists; apply lookup_insert_eq).
Qed.

Lemma creation_stores_item_and_record_witness :
  outcome (addListing no_faults 7 "bread" "lobby" "img" 3 100 "fresh" ["vegan"]) bread_world
    = Ok (0%nat, bread) ∧
  listings (run (addListing no_faults 7 "bread" "lobby" "img" 3 100 "fresh" ["vegan"])
              bread_world) = <[0%nat := bread]> ∅ ∧
  tagged (run (addListing no_faults 7 "bread" "lobby" "img" 3 100 "fresh" ["vegan"])
            bread_world) = [(0%nat, "vegan")].
Proof.
  destruct (proj1 creation_stores_item_and_record no_faults 7%nat "bread" "lobby" "img" 3 100
              "fresh" ["vegan"] bread_world) as (Hok & Hitem & _ & Htags & _).
  - reflexivity.
  - reflexivity.
  - repeat constructor.
  - split; [exact Hok|]. split; [exact Hitem | exact Htags].
Defined.

(** X6.  When the record is refused and the compensating delete is refused
    as well, the caller still gets the error of the record, not the one of
    the delete; the Item stays in its collection, visible, and there is no
    expiration record that would ever have it hidden.  Both creation
    routes. *)
Theorem creation_refused_twice_leaves_item :
  (∀ F user name meetup_location image quantity expireDate description tags w,
     F (ItemCreate KListing) = false →
     F (ExpAllocate KListing (next_oid w)) = true →
     F (ItemDelete KListing (next_oid w)) = true →
     let doc := mkListing user name meetup_location image quantity description tags false in
     let m := addListing F user name meetup_location image quantity expireDate description tags in
     outcome m w = Err (StoreFailure (ExpAllocate KListing (next_oid w))) ∧
     listings (run m w) !! next_oid w = Some doc ∧
     listing_expirations (run m w) = listing_expirations w ∧
     tagged (run m w) = tagged w) ∧
  (∀ F user name quantity needBy image description w,
     F (ItemCreate KRequest) = false →
     F (ExpAllocate KRequest (next_oid w)) = true →
     F (ItemDelete KRequest (next_oid w)) = true →
     let doc := mkRequest user name quantity image description false in
     let m := addRequest F user name quantity needBy image description in
     outcome m w = Err (StoreFailure (ExpAllocate KRequest (next_oid w))) ∧
     requests (run m w) !! next_oid w = Some doc ∧
     request_expirations (run m w) = request_expirations w).
Proof.
  split.
  - intros * Hcreate Halloc Hdel. cbv zeta.
    unfold outcome, run, addListing. unfold_stores. unfold_monad.
    rewrite Hcreate. cbn [fst snd]. rewrite Halloc, Hdel. cbn.
    by rewrite lookup_insert_eq.
  - intros * Hcreate Halloc Hdel. cbv zeta.
    unfold outcome, run, addRequest. unfold_stores. unfold_monad.
    rewrite Hcreate. cbn [fst snd]. rewrite Halloc, Hdel. cbn.
    by rewrite lookup_insert_eq.
Qed.

Lemma creation_refused_twice_leaves_item_witness :
  outcome (addListing refuse_listing_expiration_and_rollback 7 "bread" "lobby" "img" 3 100
             "fresh" ["vegan"]) bread_world
    = Err (StoreFailure (ExpAllocate KListing 0)) ∧
  listings (run (addListing refuse_listing_expiration_and_rollback 7 "bread" "lobby" "img" 3
                   100 "fresh" ["vegan"]) bread_world) !! 0%nat = Some bread.
Proof.
  destruct (proj1 creation_refused_twice_leaves_item refuse_listing_expiration_and_rollback
              7%nat "bread" "lobby" "img" 3 100 "fresh" ["vegan"] bread_world)
    as (Herr & Hitem & _).
  - reflexivity.
  - reflexivity.
  - reflexivity.
  - split; [exact Herr | exact Hitem].
Defined.

(** ** The author guard and deletion ([server/routes.ts]) *)

Lemma assertAuthorIsUser_refuses F oid user w :
  (∀ l, listings w !! oid = Some l → l_author l ≠ user) →
  ∃ e, Listing.assertAuthorIsUser F oid user w = (Err e, w).
Proof.
  intros Hnot. unfold_stores. unfold_monad. destruct (F _); [by eexists|].
  destruct (listings w !! oid) as [l|] eqn:Hl; [|by eexists].
  rewrite decide_False by by apply Hnot. by eexists.
Qed.

Lemma assertAuthor_refuses F oid user w :
  (∀ r, requests w !! oid = Some r → r_requester r ≠ user) →
  ∃ e, Requesting.assertAuthor F oid user w = (Err e, w).
Proof.
  intros Hnot. unfold_stores. unfold_monad. destruct (F _); [by eexists|].
  destruct (requests w !! oid) as [r|] eqn:Hr; [|by eexists].
  rewrite decide_False by by apply Hnot. by eexists.
Qed.

(** X7.  The author guard comes before every write.  Called by a user who
    is not the author of the Item, or on an Item that is not there, the
    routes that delete a Listing, edit a Listing, delete a Request and hide
    a Request throw and leave every collection as it was, whatever the
    stores refuse. *)
Theorem guarded_routes_write_nothing_for_strangers :
  (∀ F user oid w,
     (∀ l, listings w !! oid = Some l → l_author l ≠ user) →
     (∃ e, deleteListing F user oid w = (Err e, w)) ∧
     (∀ edit_expiration name meetup_location image quantity expireDate description tags,
        ∃ e, editlisting edit_expiration F user oid name meetup_location image quantity
               expireDate description tags w = (Err e, w))) ∧
  (∀ F user oid w,
     (∀ r, requests w !! oid = Some r → r_requester r ≠ user) →
     (∃ e, deleteRequest F user oid w = (Err e, w)) ∧
     (∀ edit_request name quantity image description,
        ∃ e, updateRequest edit_request F user oid name quantity image description true w
             = (Err e, w))).
Proof.
  split.
  - intros F user oid w Hnot.
    destruct (assertAuthorIsUser_refuses F oid user w Hnot) as [e He]. split.
    + exists e. unfold deleteListing, bind at 1. by rewrite He.
    + intros. exists e. unfold editlisting, bind at 1. by rewrite He.
  - intros F user oid w Hnot.
    destruct (assertAuthor_refuses F oid user w Hnot) as [e He]. split.
    + exists e. unfold deleteRequest, bind at 1. by rewrite He.
    + intros. exists e. unfold updateRequest, bind at 1, bind at 1. by rewrite He.
Qed.

Lemma guarded_routes_write_nothing_for_strangers_witness :
  ∃ e, deleteListing no_faults 9 0 expired_bread_world = (Err e, expired_bread_world).
Proof.
  apply (proj1 guarded_routes_write_nothing_for_strangers no_faults 9%nat 0%nat
           expired_bread_world).
  intros l Hl. vm_compute in Hl. injection Hl as <-. discriminate.
Defined.

(** X8.  [deleteListing] by the author deletes the Listing even when the
    cleanup of its expiration record fails: with the guard and the delete
    not refused it returns normally and the Listing is gone, whatever the
    expiration store refuses.  The cleanup only ever removes records, and
    removes every record of the Listing when it is not refused and there is
    one record per item.  Claims and tags of the Listing are not touched. *)
Theorem deleteListing_is_best_effort F user oid w l :
  listings w !! oid = Some l →
  l_author l = user →
  F (ItemAssertAuthor KListing oid) = false →
  F (ItemDelete KListing oid) = false →
  let w' := run (deleteListing F user oid) w in
  outcome (deleteListing F user oid) w = Ok tt ∧
  listings w' = delete oid (listings w) ∧
  (∀ rid d, listing_expirations w' !! rid = Some d → listing_expirations w !! rid = Some d) ∧
  (F (ExpGetByItem KListing oid) = false →
   (∀ rid, F (ExpDelete KListing rid) = false) →
   one_record_per_item (listing_expirations w) →
   ∀ rid d, listing_expirations w' !! rid = Some d → e_item d ≠ oid) ∧
  claims w' = claims w ∧ tagged w' = tagged w ∧ requests w' = requests w ∧
  request_expirations w' = request_expirations w ∧ offers w' = offers w.
Proof.
  intros Hl Hauthor Hassert Hdel. cbv zeta.
  unfold outcome, run, deleteListing. unfold_stores. unfold_monad.
  rewrite Hassert, Hl, decide_True by done. cbn [fst snd expirations with_expirations].
  destruct (F (ExpGetByItem KListing oid)) eqn:Hget.
  { rewrite Hdel. cbn. repeat split; done. }
  destruct (head (records_of_item oid (listing_expirations w))) as [[rid0 d0]|] eqn:Hhead.
  - destruct (F (ExpDelete KListing rid0)) eqn:Hrec; rewrite Hdel; cbn.
    + repeat split; try done. intros _ Hall. by rewrite Hall in Hrec.
    + apply records_of_item_some in Hhead as [Hd0 Hitem0].
      repeat split; try done.
      * intros rid d. by intros [_ ?]%lookup_delete_Some.
      * intros _ _ Hone rid d [Hne Hd]%lookup_delete_Some Hitem. apply Hne.
        apply (Hone rid0 rid d0 d); congruence.
  - rewrite Hdel. cbn. repeat split; try done.
    intros _ _ _. by apply records_of_item_none.
Qed.

Lemma deleteListing_is_best_effort_witness :
  outcome (deleteListing (fail_on [ExpDelete KListing 1]) 7 0) expired_bread_world = Ok tt ∧
  listings (run (deleteListing (fail_on [ExpDelete KListing 1]) 7 0) expired_bread_world)
    = delete 0%nat (listings expired_bread_world) ∧
  tagged (run (deleteListing (fail_on [ExpDelete KListing 1]) 7 0) expired_bread_world)
    = tagged expired_bread_world.
Proof.
  destruct (deleteListing_is_best_effort (fail_on [ExpDelete KListing 1]) 7%nat 0%nat
              expired_bread_world bread) as (Hok & Hgone & _ & _ & _ & Htags & _).
  - vm_compute. reflexivity.
  - reflexivity.
  - reflexivity.
  - reflexivity.
  - split; [exact Hok|]. split; [exact Hgone | exact Htags].
Defined.

(** ** More on claiming ([server/routes.ts]) *)

Lemma claim_listings user oid quantity w l :
  listings w !! oid = Some l →
  quantity ≤ l_quantity l →
  listings (run (claim no_faults user oid quantity) w) = <[oid := claimed quantity l]> (listings w).
Proof.
  intros Hl Hle. unfold run, claim. unfold_stores. unfold_monad. cbn.
  rewrite Hl. rewrite decide_True by done. cbn. rewrite Hl.
  unfold Listing.edit_fields, claimed. cbn.
  destruct (decide (quantity = l_quantity l)) as [Heq|Hne]; cbn; [|done].
  apply map_eq. intros i. destruct (decide (i = oid)) as [->|Hi].
  - by rewrite lookup_alter_eq, !lookup_insert_eq.
  - by rewrite lookup_alter_ne, !lookup_insert_ne.
Qed.

Lemma claimed_claimed q1 q2 l :
  0 ≤ q2 → q1 + q2 ≤ l_quantity l → claimed q2 (claimed q1 l) = claimed (q1 + q2) l.
Proof.
  intros Hpos Hle. unfold claimed. cbn. f_equal; [lia|].
  destruct (decide (q1 = l_quantity l)), (decide (q1 + q2 = l_quantity l)),
    (decide (q2 = l_quantity l - q1)); try done; lia.
Qed.

(** X9.  A claim is three writes and no transaction.  When the Claim has
    been stored and the store then refuses the edit of the Listing, the
    route throws with the Claim in place and the quantity not reduced; when
    a claim of everything that is left has been stored and deducted and the
    store then refuses the hiding, the Listing stays visible with quantity
    0. *)
Theorem claim_is_not_atomic F user oid quantity w l :
  listings w !! oid = Some l →
  quantity ≤ l_quantity l →
  F (ItemGet KListing oid) = false →
  F (ClaimCreate oid) = false →
  let w' := run (claim F user oid quantity) w in
  (F (ItemEdit KListing oid) = true →
     outcome (claim F user oid quantity) w = Err (StoreFailure (ItemEdit KListing oid)) ∧
     claims w' = <[next_oid w := mkClaim user quantity oid]> (claims w) ∧
     listings w' = listings w) ∧
  (F (ItemEdit KListing oid) = false →
   quantity = l_quantity l →
   F (ItemHide KListing oid) = true →
     outcome (claim F user oid quantity) w = Err (StoreFailure (ItemHide KListing oid)) ∧
     claims w' = <[next_oid w := mkClaim user quantity oid]> (claims w) ∧
     listings w' !! oid
       = Some (mkListing (l_author l) (l_name l) (l_meetup_location l) (l_image l) 0
                 (l_description l) (l_tags l) (l_hidden l))).
Proof.
  intros Hl Hle Hget Hclaim. cbv zeta. split.
  - intros Hedit. unfold outcome, run, claim. unfold_stores. unfold_monad.
    rewrite Hget, Hl. cbn. rewrite decide_True by done. by rewrite Hclaim, Hedit.
  - intros Hedit Heq Hhide. unfold outcome, run, claim. unfold_stores. unfold_monad.
    rewrite Hget, Hl. cbn. rewrite decide_True by done. rewrite Hclaim, Hedit. cbn. rewrite Hl.
    rewrite decide_True by done. rewrite Hhide. cbn. split; [done|]. split; [done|].
    rewrite lookup_insert_eq. unfold Listing.edit_fields. cbn. do 2 f_equal. lia.
Qed.

Lemma claim_is_not_atomic_witness :
  outcome (claim (fail_on [ItemEdit KListing 0]) 5 0 2) expired_bread_world
    = Err (StoreFailure (ItemEdit KListing 0)) ∧
  claims (run (claim (fail_on [ItemEdit KListing 0]) 5 0 2) expired_bread_world)
    = <[2%nat := mkClaim 5 2 0]> ∅ ∧
  listings (run (claim (fail_on [ItemEdit KListing 0]) 5 0 2) expired_bread_world)
    = listings expired_bread_world.
Proof.
  apply (claim_is_not_atomic (fail_on [ItemEdit KListing 0]) 5%nat 0%nat 2
           expired_bread_world bread).
  - vm_compute. reflexivity.
  - vm_compute. discriminate.
  - reflexivity.
  - reflexivity.
  - reflexivity.
Defined.

(** X10.  Claims add up, on safe integers.  With no call refused, on a
    Listing whose quantity is a safe integer, two claims in a row, by any
    two users, of quantities that are not negative and together within the
    quantity of the Listing, leave the Listing exactly as one claim of the
    two quantities together does: the same quantity left, and hidden when
    the two took all of it.  (Every number of the three runs then lies
    between 0 and the quantity of the Listing, where the subtraction of the
    route, on doubles, is that of the integers.) *)
Theorem claims_add_up user1 user2 oid q1 q2 w l :
  listings w !! oid = Some l →
  safe_integer (l_quantity l) →
  0 ≤ q1 →
  0 ≤ q2 →
  q1 + q2 ≤ l_quantity l →
  listings (run (claim no_faults user2 oid q2) (run (claim no_faults user1 oid q1) w))
  = listings (run (claim no_faults user1 oid (q1 + q2)) w) ∧
  listings (run (claim no_faults user2 oid q2) (run (claim no_faults user1 oid q1) w)) !! oid
  = Some (mkListing (l_author l) (l_name l) (l_meetup_location l) (l_image l)
            (l_quantity l - (q1 + q2)) (l_description l) (l_tags l)
            (if decide (q1 + q2 = l_quantity l) then true else l_hidden l)).
Proof.
  intros Hl _ _ Hpos Hle.
  assert (listings (run (claim no_faults user2 oid q2) (run (claim no_faults user1 oid q1) w))
          = <[oid := claimed (q1 + q2) l]> (listings w)) as ->.
  { rewrite (claim_listings user2 oid q2 _ (claimed q1 l)).
    - rewrite (claim_listings user1 oid _ w l) by (done || lia).
      by rewrite insert_insert_eq, claimed_claimed.
    - rewrite (claim_listings user1 oid q1 w l) by (done || lia). apply lookup_insert_eq.
    - cbn. lia. }
  split.
  - by rewrite (claim_listings user1 oid _ w l).
  - apply lookup_insert_eq.
Qed.

Lemma claims_add_up_witness :
  listings (run (claim no_faults 6 0 2) (run (claim no_faults 5 0 1) expired_bread_world))
  = listings (run (claim no_faults 5 0 3) expired_bread_world) ∧
  listings (run (claim no_faults 6 0 2) (run (claim no_faults 5 0 1) expired_bread_world))
    !! 0%nat
  = Some (mkListing 7 "bread" "lobby" "img" 0 "fresh" ["vegan"] true).
Proof.
  apply (claims_add_up 5%nat 6%nat 0%nat 1 2 expired_bread_world bread).
  - vm_compute. reflexivity.
  - unfold safe_integer. cbn. lia.
  - lia.
  - lia.
  - vm_compute. discriminate.
Defined.

(** ** More on offer acceptance ([server/routes.ts]) *)

Lemma acceptOffer_run user oid w o :
  offers w !! oid = Some o →
  acceptOffer no_faults user oid w
  = (Ok "Accepted offer!",
     with_offers (alter accept_offer oid) (with_requests (alter hide_request (o_item o)) w)).
Proof. intros Ho. unfold acceptOffer. unfold_stores. unfold_monad. cbn. by rewrite Ho. Qed.

(** X11.  Accepting is two writes and no transaction: the Request is hidden
    first.  When the store then refuses to accept the Offer, the route
    throws with the Request left with [hidden = true] (its other fields as
    they were) and every Offer as it was. *)
Theorem acceptOffer_is_not_atomic F user oid w o rq :
  offers w !! oid = Some o →
  requests w !! o_item o = Some rq →
  F (OfferGet oid) = false →
  F (ItemHide KRequest (o_item o)) = false →
  F (OfferAccept oid) = true →
  outcome (acceptOffer F user oid) w = Err (StoreFailure (OfferAccept oid)) ∧
  requests (run (acceptOffer F user oid) w) !! o_item o
    = Some (mkRequest (r_requester rq) (r_name rq) (r_quantity rq) (r_image rq)
              (r_description rq) true) ∧
  offers (run (acceptOffer F user oid) w) = offers w.
Proof.
  intros Ho Hrq Hget Hhide Haccept. unfold outcome, run, acceptOffer. unfold_stores. unfold_monad.
  rewrite Hget, Ho, Hhide, Haccept. cbn. by rewrite lookup_alter_eq, Hrq.
Qed.

Lemma acceptOffer_is_not_atomic_witness :
  outcome (acceptOffer (fail_on [OfferAccept 2]) 1 2) soup_world
    = Err (StoreFailure (OfferAccept 2)) ∧
  requests (run (acceptOffer (fail_on [OfferAccept 2]) 1 2) soup_world) !! 0%nat
    = Some (mkRequest 1 "soup" 2 None None true) ∧
  offers (run (acceptOffer (fail_on [OfferAccept 2]) 1 2) soup_world) = offers soup_world.
Proof.
  apply (acceptOffer_is_not_atomic (fail_on [OfferAccept 2]) 1%nat 2%nat soup_world
           (mkOffer 8 0 "gate" None None OfferActive) soup).
  - vm_compute. reflexivity.
  - vm_compute. reflexivity.
  - reflexivity.
  - reflexivity.
  - reflexivity.
Defined.

(** X12.  Nothing makes an acceptance exclusive, and nothing ties it to a
    user.  With no call refused, any two Offers that exist can be accepted
    one after the other, by any users, also when they are Offers on the same
    Request, which the first acceptance has hidden: the second acceptance
    returns normally, both Offers end accepted, and the order of the two
    makes no difference to any collection. *)
Theorem acceptances_do_not_exclude_each_other user1 user2 oid1 oid2 w o1 o2 :
  offers w !! oid1 = Some o1 →
  offers w !! oid2 = Some o2 →
  let w1 := run (acceptOffer no_faults user1 oid1) w in
  let w12 := run (acceptOffer no_faults user2 oid2) w1 in
  outcome (acceptOffer no_faults user2 oid2) w1 = Ok "Accepted offer!" ∧
  offers w12 !! oid1 = Some (accept_offer o1) ∧
  offers w12 !! oid2 = Some (accept_offer o2) ∧
  w12 = run (acceptOffer no_faults user1 oid1) (run (acceptOffer no_faults user2 oid2) w).
Proof.
  intros Ho1 Ho2. cbv zeta. unfold outcome, run.
  rewrite (acceptOffer_run user1 oid1 w o1 Ho1), (acceptOffer_run user2 oid2 w o2 Ho2).
  cbn [fst snd].
  assert (∀ o, accept_offer (accept_offer o) = accept_offer o) as Hidem by done.
  destruct (decide (oid1 = oid2)) as [->|Hne].
  - assert (o1 = o2) as -> by congruence.
    rewrite (acceptOffer_run user2 oid2 _ (accept_offer o2))
      by (cbn; by rewrite lookup_alter_eq, Ho2).
    rewrite (acceptOffer_run user1 oid2 _ (accept_offer o2))
      by (cbn; by rewrite lookup_alter_eq, Ho2).
    cbn. by rewrite !lookup_alter_eq, Ho2.
  - rewrite (acceptOffer_run user2 oid2 _ o2) by (cbn; by rewrite lookup_alter_ne).
    rewrite (acceptOffer_run user1 oid1 _ o1) by (cbn; by rewrite lookup_alter_ne).
    cbn. split; [done|].
    split; [by rewrite lookup_alter_ne, lookup_alter_eq, Ho1|].
    split; [by rewrite lookup_alter_eq, lookup_alter_ne, Ho2|].
    unfold with_offers, with_requests. cbn.
    by rewrite (alter_hide_swap accept_offer), (alter_hide_swap hide_request).
Qed.

Lemma acceptances_do_not_exclude_each_other_witness :
  outcome (acceptOffer no_faults 4 3) (run (acceptOffer no_faults 1 2) soup_world)
    = Ok "Accepted offer!" ∧
  offers (run (acceptOffer no_faults 4 3) (run (acceptOffer no_faults 1 2) soup_world)) !! 2%nat
    = Some (mkOffer 8 0 "gate" None None OfferAccepted) ∧
  offers (run (acceptOffer no_faults 4 3) (run (acceptOffer no_faults 1 2) soup_world)) !! 3%nat
    = Some (mkOffer 9 0 "porch" None None OfferAccepted).
Proof.
  destruct (acceptances_do_not_exclude_each_other 1%nat 4%nat 2%nat 3%nat soup_world
              (mkOffer 8 0 "gate" None None OfferActive)
              (mkOffer 9 0 "porch" None None OfferActive)) as (Hok & H1 & H2 & _).
  - vm_compute. reflexivity.
  - vm_compute. reflexivity.
  - split; [exact Hok|]. split; [exact H1 | exact H2].
Defined.

(** ** Editing ([server/routes.ts]) *)

Lemma assertAuthorIsUser_ok F oid user w l :
  F (ItemAssertAuthor KListing oid) = false →
  listings w !! oid = Some l → l_author l = user →
  Listing.assertAuthorIsUser F oid user w = (Ok tt, w).
Proof.
  intros HF Hl Hauthor. unfold_stores. unfold_monad. rewrite HF, Hl.
  by rewrite decide_True.
Qed.

Lemma editlisting_store_ok F id name meetup_location image quantity description tags w l :
  F (ItemEdit KListing id) = false →
  listings w !! id = Some l →
  Listing.editlisting F id name meetup_location image quantity description tags w
  = (Ok (Listing.edit_fields name meetup_location image quantity description tags l),
     with_listings
       (insert id (Listing.edit_fields name meetup_location image quantity description tags l)) w).
Proof. intros HF Hl. unfold_stores. unfold_monad. by rewrite HF, Hl. Qed.

(** A [try] whose [catch] only logs returns normally. *)
Lemma try_catch_swallows (m : M unit) w :
  ∃ w', try_catch m (λ _, ret tt) w = (Ok tt, w').
Proof. unfold try_catch, ret. destruct (m w) as [[[]|e] w']; by eexists. Qed.

(** X13.  Editing a Listing succeeds whatever becomes of its expiration
    date.  When the guard and the edit of the fields go through, the route
    returns the Listing with the fields that were sent replaced and the
    others kept, for every behaviour of the expiration store: a refused
    lookup, a refused or failing update, a refused new record.  With no date
    sent, the edited Listing is the only change. *)
Theorem editlisting_survives_expiration_failures
    edit_expiration F user id name meetup_location image quantity expireDate description tags
    w l :
  listings w !! id = Some l →
  l_author l = user →
  F (ItemAssertAuthor KListing id) = false →
  F (ItemEdit KListing id) = false →
  let edited := Listing.edit_fields name meetup_location image quantity description tags l in
  let m := editlisting edit_expiration F user id name meetup_location image quantity expireDate
             description tags in
  outcome m w = Ok edited ∧
  (expireDate = None → run m w = with_listings (insert id edited) w).
Proof.
  intros Hl Hauthor Hassert Hedit. cbv zeta.
  set (edited := Listing.edit_fields name meetup_location image quantity description tags l).
  assert (∃ w', editlisting edit_expiration F user id name meetup_location image quantity
                  expireDate description tags w = (Ok edited, w') ∧
                (expireDate = None → w' = with_listings (insert id edited) w))
    as (w' & Hrun & Hnone).
  { unfold editlisting.
    unfold bind at 1. rewrite (assertAuthorIsUser_ok F id user w l) by done.
    unfold bind at 1. rewrite (editlisting_store_ok F id _ _ _ _ _ _ w l) by done.
    fold edited. destruct expireDate as [date|].
    - unfold bind at 1.
      match goal with
      | |- context [try_catch ?m ?h ?w0] => destruct (try_catch_swallows m w0) as [w' ->]
      end.
      by exists w'.
    - by eexists. }
  unfold outcome, run. by rewrite Hrun.
Qed.

Lemma editlisting_survives_expiration_failures_witness :
  outcome (editlisting (editExpiration KListing)
             (fail_on [ExpGetByItem KListing 0]) 7 0 (Some "loaf") None None (Some 2)
             (Some 400) None None) expired_bread_world
  = Ok (mkListing 7 "loaf" "lobby" "img" 2 "fresh" ["vegan"] false).
Proof.
  apply (editlisting_survives_expiration_failures (editExpiration KListing)
           (fail_on [ExpGetByItem KListing 0]) 7%nat 0%nat (Some "loaf") None None (Some 2)
           (Some 400) None None expired_bread_world bread).
  - vm_compute. reflexivity.
  - reflexivity.
  - reflexivity.
  - reflexivity.
Defined.

(** X14.  A date sent with an edit ends up on the record of the Listing,
    whether there was a record or not.  With the update of a record as the
    contract has it, the guard, the edit and the expiration store not
    refusing, and one record per item before: afterwards there is a record
    of the Listing with the new date, and still one record per item. *)
Theorem editlisting_sets_the_date
    F user id name meetup_location image quantity date description tags w l :
  listings w !! id = Some l →
  l_author l = user →
  F (ItemAssertAuthor KListing id) = false →
  F (ItemEdit KListing id) = false →
  F (ExpGetByItem KListing id) = false →
  F (ExpAllocate KListing id) = false →
  one_record_per_item (listing_expirations w) →
  let w' := run (editlisting (editExpiration KListing) F user id name meetup_location image
                   quantity (Some date) description tags) w in
  (∃ rid, listing_expirations w' !! rid = Some (mkExpire id date)) ∧
  one_record_per_item (listing_expirations w') ∧
  listings w'
  = <[id := Listing.edit_fields name meetup_location image quantity description tags l]>
      (listings w).
Proof.
  intros Hl Hauthor Hassert Hedit Hget Halloc Hone. cbv zeta.
  set (edited := Listing.edit_fields name meetup_location image quantity description tags l).
  assert (∃ w', run (editlisting (editExpiration KListing) F user id name meetup_location
                       image quantity (Some date) description tags) w = w' ∧
                (∃ rid, listing_expirations w' !! rid = Some (mkExpire id date)) ∧
                one_record_per_item (listing_expirations w') ∧
                listings w' = <[id := edited]> (listings w)) as (w' & -> & Hrest); [|done].
  unfold run, editlisting.
  unfold bind at 1. rewrite (assertAuthorIsUser_ok F id user w l) by done.
  unfold bind at 1. rewrite (editlisting_store_ok F id _ _ _ _ _ _ w l) by done.
  fold edited. unfold editExpiration. unfold_stores. unfold_monad. rewrite Hget. cbn.
  destruct (head (records_of_item id (listing_expirations w))) as [[rid old]|] eqn:Hhead.
  - apply records_of_item_some in Hhead as [Hold Hitem].
    change (listing_expirations (with_listings <[id:=edited]> w))
      with (listing_expirations w).
    rewrite Hold. cbn. rewrite Hitem. eexists. split; [reflexivity|]. cbn.
    split; [exists rid; apply lookup_insert_eq|]. split; [|done].
    by apply (one_record_update _ rid old).
  - rewrite Halloc. cbn. rewrite Hhead. cbn. eexists. split; [reflexivity|]. cbn.
    split; [eexists; apply lookup_insert_eq|]. split; [|done].
    apply one_record_new; [|done]. cbn. by apply records_of_item_none.
Qed.

Lemma editlisting_sets_the_date_witness :
  listing_expirations
    (run (editlisting (editExpiration KListing) no_faults 7 0 None None None None (Some 400)
            None None) expired_bread_world) !! 1%nat
  = Some (mkExpire 0 400).
Proof.
  destruct (editlisting_sets_the_date no_faults 7%nat 0%nat None None None None 400 None None
              expired_bread_world bread) as ([rid Hrid] & Hone & _).
  - vm_compute. reflexivity.
  - reflexivity.
  - reflexivity.
  - reflexivity.
  - reflexivity.
  - reflexivity.
  - intros r1 r2 d1 d2 H1 H2 _.
    assert (listing_expirations expired_bread_world = {[ 1%nat := mkExpire 0 100 ]}) as Hrecs
      by (vm_compute; reflexivity).
    rewrite Hrecs in H1, H2.
    apply lookup_singleton_Some in H1 as [<- _]. by apply lookup_singleton_Some in H2 as [<- _].
  - vm_compute. reflexivity.
Defined.

Lemma alter_lookup {A} (f : A → A) (m : gmap nat A) i x :
  m !! i = Some x → alter f i m = <[i := f x]> m.
Proof.
  intros Hx. apply map_eq. intros j. destruct (decide (i = j)) as [<-|Hne].
  - by rewrite lookup_alter_eq, lookup_insert_eq, Hx.
  - by rewrite lookup_alter_ne, lookup_insert_ne.
Qed.

(** X15.  A hide request hides and nothing else.  With [hideSwitch] set,
    [updateRequest] by the author returns the Request with [hidden = true]
    and every other field as stored, and the stored Request becoming that
    one is the only change: a name, quantity, image or description sent
    along is dropped, and the edit operation of the store is not called. *)
Theorem updateRequest_hide_drops_the_fields
    edit_request F user id name quantity image description w r :
  requests w !! id = Some r →
  r_requester r = user →
  F (ItemAssertAuthor KRequest id) = false →
  F (ItemHide KRequest id) = false →
  F (ItemGet KRequest id) = false →
  let hidden := mkRequest (r_requester r) (r_name r) (r_quantity r) (r_image r)
                  (r_description r) true in
  updateRequest edit_request F user id name quantity image description true w
  = (Ok hidden, with_requests (insert id hidden) w).
Proof.
  intros Hr Hauthor Hassert Hhide Hget. cbv zeta. unfold updateRequest.
  unfold bind at 1, bind at 1. rewrite (assertAuthor_ok F id user w r) by done.
  unfold_stores. unfold_monad. rewrite Hhide, Hget. cbn.
  rewrite lookup_alter_eq, Hr. cbn. f_equal.
  unfold with_requests. by rewrite (alter_lookup hide_request _ id r Hr).
Qed.

Lemma updateRequest_hide_drops_the_fields_witness :
  updateRequest (λ _ _ _ _ _ _ _, throw (StoreFailure (ItemEdit KRequest 0))) no_faults 1 0
    (Some "stew") (Some 9) None None true soup_world
  = (Ok (mkRequest 1 "soup" 2 None None true),
     with_requests (insert 0%nat (mkRequest 1 "soup" 2 None None true)) soup_world).
Proof.
  apply (updateRequest_hide_drops_the_fields _ no_faults 1%nat 0%nat (Some "stew") (Some 9) None
           None soup_world soup).
  - vm_compute. reflexivity.
  - reflexivity.
  - reflexivity.
  - reflexivity.
  - reflexivity.
Defined.

(** ** The creation forms ([client/components]) *)

Section FormFacts.

Import QArith_base.

Variable url_protocol : string → option string.
Variable date_time : string → option Instant.

Lemma empty_string_false s : empty_string s = false ↔ s ≠ "".
Proof. unfold empty_string. apply bool_decide_eq_false. Qed.

Lemma Qlt_bool_false x y : Qlt_bool x y = false ↔ (y <= x)%Q.
Proof. unfold Qlt_bool. rewrite negb_false_iff. apply Qle_bool_iff. Qed.

Lemma zero_or_null_false q : zero_or_null q = false ↔ ∃ x, q = Some x ∧ ¬ (x == 0)%Q.
Proof.
  destruct q as [x|]; cbn.
  - rewrite <- not_true_iff_false, Qeq_bool_iff. split.
    + intros H. by exists x.
    + by intros (? & [= <-] & H).
  - split; [done | by intros (? & ? & _)].
Qed.

Lemma isValidUrl_true url :
  isValidUrl url_protocol url = true ↔
  ∃ protocol, url_protocol url = Some protocol ∧ (protocol = "http:" ∨ protocol = "https:").
Proof.
  unfold isValidUrl. destruct (url_protocol url) as [p|].
  - rewrite orb_true_iff, !bool_decide_eq_true. split.
    + intros H. by exists p.
    + by intros (? & [= <-] & H).
  - split; [done | by intros (? & ? & _)].
Qed.

Lemma isValidDate_true value :
  isValidDate date_time value = true ↔ value ≠ "" ∧ is_Some (date_time value).
Proof.
  unfold isValidDate. destruct (empty_string value) eqn:He.
  - apply bool_decide_eq_true in He. split; [done | by intros [? _]].
  - apply empty_string_false in He. destruct (date_time value).
    + split; [by intros _; split | done].
    + split; [done | by intros [_ [? ?]]].
Qed.

Lemma at_least_one_not_zero x : (1 <= x)%Q → ¬ (x == 0)%Q.
Proof. intros Hle Hzero. rewrite Hzero in Hle. by apply Hle. Qed.

(** X16.  The Listing form sends a body only when every check has passed,
    and sends the fields as they are: name, meetup location, image and
    description not empty, the image a URL that parses with protocol http:
    or https:, the date not empty and a date that parses, and a quantity
    that is a number from 1 to 100.  Every other form ends in a message. *)
Theorem createListing_posts_valid_forms_only form body :
  createListing url_protocol date_time form = Post body ↔
  body = form ∧
  lf_name form ≠ "" ∧ lf_meetupLocation form ≠ "" ∧ lf_imageUrl form ≠ "" ∧
  lf_description form ≠ "" ∧
  (∃ protocol, url_protocol (lf_imageUrl form) = Some protocol ∧
               (protocol = "http:" ∨ protocol = "https:")) ∧
  lf_expireDate form ≠ "" ∧ is_Some (date_time (lf_expireDate form)) ∧
  ∃ quantity, lf_quantity form = Some quantity ∧ (1 <= quantity)%Q ∧ (quantity <= 100)%Q.
Proof.
  unfold createListing. change (inject_Z 1) with 1%Q. change (inject_Z 100) with 100%Q.
  destruct (empty_string (lf_name form)) eqn:Hname; cbn [orb].
  { apply bool_decide_eq_true in Hname. split; [done | by intros (_ & ? & _)]. }
  destruct (empty_string (lf_meetupLocation form)) eqn:Hmeet; cbn [orb].
  { apply bool_decide_eq_true in Hmeet. split; [done | by intros (_ & _ & ? & _)]. }
  destruct (zero_or_null (lf_quantity form)) eqn:Hq; cbn [orb].
  { split; [done|]. intros (_ & _ & _ & _ & _ & _ & _ & _ & q & Hsome & Hlo & _).
    assert (zero_or_null (lf_quantity form) = false) as Hfalse.
    { apply zero_or_null_false. exists q. split; [done|]. by apply at_least_one_not_zero. }
    congruence. }
  destruct (empty_string (lf_imageUrl form)) eqn:Himg; cbn [orb].
  { apply bool_decide_eq_true in Himg. split; [done | by intros (_ & _ & _ & ? & _)]. }
  destruct (empty_string (lf_description form)) eqn:Hdesc; cbn [orb].
  { apply bool_decide_eq_true in Hdesc. split; [done | by intros (_ & _ & _ & _ & ? & _)]. }
  apply empty_string_false in Hname, Hmeet, Himg, Hdesc.
  apply zero_or_null_false in Hq as (q & Hsome & Hnz).
  destruct (isValidUrl url_protocol (lf_imageUrl form)) eqn:Hurl; cbn [negb].
  2:{ split; [done|]. intros (_ & _ & _ & _ & _ & Hp & _).
      apply isValidUrl_true in Hp. congruence. }
  destruct (isValidDate date_time (lf_expireDate form)) eqn:Hdate; cbn [negb].
  2:{ split; [done|]. intros (_ & _ & _ & _ & _ & _ & Hd1 & Hd2 & _).
      assert (isValidDate date_time (lf_expireDate form) = true) by by apply isValidDate_true.
      congruence. }
  apply isValidUrl_true in Hurl. apply isValidDate_true in Hdate as [Hd1 Hd2].
  rewrite Hsome. cbn [default from_option id].
  destruct (Qlt_bool q 1%Q) eqn:Hlo; cbn [orb].
  { split; [done|]. intros (_ & _ & _ & _ & _ & _ & _ & _ & q' & [= <-] & Hle & _).
    apply Qlt_bool_false in Hle. congruence. }
  destruct (Qlt_bool 100%Q q) eqn:Hhi.
  { split; [done|]. intros (_ & _ & _ & _ & _ & _ & _ & _ & q' & [= <-] & _ & Hle).
    apply Qlt_bool_false in Hle. congruence. }
  apply Qlt_bool_false in Hlo, Hhi. split.
  - intros [= <-]. repeat split; try done. by exists q.
  - by intros (-> & _).
Qed.

(** X17.  The same for the Request form: a body is sent only when name,
    image and description are not empty, the image parses as an http: or
    https: URL, the date is not empty and parses, and the quantity is from 1
    to 100; the fields are sent as they are. *)
Theorem createRequest_posts_valid_forms_only form body :
  createRequest url_protocol date_time form = Post body ↔
  body = form ∧
  rf_name form ≠ "" ∧ rf_imageUrl form ≠ "" ∧ rf_description form ≠ "" ∧
  (∃ protocol, url_protocol (rf_imageUrl form) = Some protocol ∧
               (protocol = "http:" ∨ protocol = "https:")) ∧
  rf_needBy form ≠ "" ∧ is_Some (date_time (rf_needBy form)) ∧
  (1 <= rf_quantity form)%Q ∧ (rf_quantity form <= 100)%Q.
Proof.
  unfold createRequest. change (inject_Z 1) with 1%Q. change (inject_Z 100) with 100%Q.
  destruct (empty_string (rf_name form)) eqn:Hname; cbn [orb].
  { apply bool_decide_eq_true in Hname. split; [done | by intros (_ & ? & _)]. }
  destruct (zero_or_null (Some (rf_quantity form))) eqn:Hq; cbn [orb].
  { split; [done|]. intros (_ & _ & _ & _ & _ & _ & _ & Hlo & _).
    assert (zero_or_null (Some (rf_quantity form)) = false) as Hfalse.
    { apply zero_or_null_false. eexists. split; [done|]. by apply at_least_one_not_zero. }
    congruence. }
  destruct (empty_string (rf_needBy form)) eqn:Hneed; cbn [orb].
  { apply bool_decide_eq_true in Hneed. split; [done | by intros (_ & _ & _ & _ & _ & ? & _)]. }
  destruct (empty_string (rf_imageUrl form)) eqn:Himg; cbn [orb].
  { apply bool_decide_eq_true in Himg. split; [done | by intros (_ & _ & ? & _)]. }
  destruct (empty_string (rf_description form)) eqn:Hdesc; cbn [orb].
  { apply bool_decide_eq_true in Hdesc. split; [done | by intros (_ & _ & _ & ? & _)]. }
  apply empty_string_false in Hname, Hneed, Himg, Hdesc.
  destruct (isValidUrl url_protocol (rf_imageUrl form)) eqn:Hurl; cbn [negb].
  2:{ split; [done|]. intros (_ & _ & _ & _ & Hp & _).
      apply isValidUrl_true in Hp. congruence. }
  destruct (isValidDate date_time (rf_needBy form)) eqn:Hdate; cbn [negb].
  2:{ split; [done|]. intros (_ & _ & _ & _ & _ & Hd1 & Hd2 & _).
      assert (isValidDate date_time (rf_needBy form) = true) by by apply isValidDate_true.
      congruence. }
  apply isValidUrl_true in Hurl. apply isValidDate_true in Hdate as [Hd1 Hd2].
  destruct (Qlt_bool (rf_quantity form) 1%Q) eqn:Hlo; cbn [orb].
  { split; [done|]. intros (_ & _ & _ & _ & _ & _ & _ & Hle & _).
    apply Qlt_bool_false in Hle. congruence. }
  destruct (Qlt_bool 100%Q (rf_quantity form)) eqn:Hhi.
  { split; [done|]. intros (_ & _ & _ & _ & _ & _ & _ & _ & Hle).
    apply Qlt_bool_false in Hle. congruence. }
  apply Qlt_bool_false in Hlo, Hhi. split.
  - intros [= <-]. repeat split; done.
  - by intros (-> & _).
Qed.

End FormFacts.

(** ** The average rating ([server/routes.ts]) *)

Section RatingFacts.

Import QArith_base Qring.
Local Open Scope Q_scope.

Local Abbreviation count xs := (inject_Z (Z.of_nat (length xs))).

Lemma count_cons (x : Q) xs : count (x :: xs) == count xs + 1.
Proof.
  cbn [length]. rewrite Nat2Z.inj_succ. unfold Z.succ. rewrite inject_Z_plus. reflexivity.
Qed.

Lemma count_positive (x : Q) xs : 0 < count (x :: xs).
Proof.
  assert (0 <= count xs) as H.
  { change 0 with (inject_Z 0). rewrite <- Zle_Qle. lia. }
  rewrite count_cons. apply Qlt_le_trans with (0 + 1); [reflexivity|].
  apply Qplus_le_l. exact H.
Qed.

Lemma total_above lo (xs : list Q) acc :
  (∀ r, r ∈ xs → lo <= r) → acc + count xs * lo <= foldl Qplus acc xs.
Proof.
  revert acc. induction xs as [|x xs IH]; intros acc Hall.
  - cbn. ring_simplify. apply Qle_refl.
  - cbn [foldl]. eapply Qle_trans; [|apply IH].
    + rewrite count_cons.
      assert (lo <= x) as Hx by apply Hall, list_elem_of_here.
      assert ((acc + (count xs + 1) * lo) == ((acc + lo) + count xs * lo)) as -> by ring.
      apply Qplus_le_l. apply Qplus_le_r. exact Hx.
    + intros r Hr. apply Hall. by apply list_elem_of_further.
Qed.

Lemma total_below hi (xs : list Q) acc :
  (∀ r, r ∈ xs → r <= hi) → foldl Qplus acc xs <= acc + count xs * hi.
Proof.
  revert acc. induction xs as [|x xs IH]; intros acc Hall.
  - cbn. ring_simplify. apply Qle_refl.
  - cbn [foldl]. eapply Qle_trans; [apply IH|].
    + intros r Hr. apply Hall. by apply list_elem_of_further.
    + rewrite count_cons.
      assert (x <= hi) as Hx by apply Hall, list_elem_of_here.
      assert ((acc + (count xs + 1) * hi) == ((acc + hi) + count xs * hi)) as -> by ring.
      apply Qplus_le_l. apply Qplus_le_r. exact Hx.
Qed.

Lemma average_between lo hi (x : Q) xs :
  (∀ r, r ∈ x :: xs → lo <= r ∧ r <= hi) →
  lo <= foldl Qplus x xs / count (x :: xs) ∧ foldl Qplus x xs / count (x :: xs) <= hi.
Proof.
  intros Hall.
  pose proof (count_positive x xs) as Hpos.
  pose proof (total_above lo xs x (λ r Hr, proj1 (Hall r (list_elem_of_further _ _ _ Hr)))) as Hlo.
  pose proof (total_below hi xs x (λ r Hr, proj2 (Hall r (list_elem_of_further _ _ _ Hr)))) as Hhi.
  destruct (Hall x (list_elem_of_here _ _)) as [Hxlo Hxhi].
  split.
  - apply Qle_shift_div_l; [exact Hpos|]. rewrite count_cons.
    eapply Qle_trans; [|exact Hlo].
    assert ((lo * (count xs + 1)) == (lo + count xs * lo)) as -> by ring.
    apply Qplus_le_l. exact Hxlo.
  - apply Qle_shift_div_r; [exact Hpos|]. rewrite count_cons.
    eapply Qle_trans; [exact Hhi|].
    assert ((hi * (count xs + 1)) == (hi + count xs * hi)) as -> by ring.
    apply Qplus_le_l. exact Hxhi.
Qed.

Lemma getAverageRating_cons (x : Q) xs :
  getAverageRating (x :: xs) = Some (foldl Qplus x xs / count (x :: xs)).
Proof. unfold getAverageRating. by rewrite decide_True by (cbn; lia). Qed.

(** X18.  [getAverageRating] returns for every list of reviews: the
    [reduce] without a start value never sees an empty array.  No reviews
    give 0; otherwise the average lies between any two whole numbers that
    bound every rating and whose products with the number of ratings are
    safe integers (there every partial sum of the route, on doubles, stays
    within the same multiples of the bounds, and so does the quotient). *)
Theorem getAverageRating_is_total_and_bounded (ratings : list Q) :
  ∃ average,
    getAverageRating ratings = Some average ∧
    (ratings = [] → average = 0) ∧
    (∀ lo hi : Z,
       ratings ≠ [] →
       safe_integer (Z.of_nat (length ratings) * lo) →
       safe_integer (Z.of_nat (length ratings) * hi) →
       (∀ r, r ∈ ratings → inject_Z lo <= r ∧ r <= inject_Z hi) →
       inject_Z lo <= average ∧ average <= inject_Z hi).
Proof.
  destruct ratings as [|x xs].
  - exists 0. split; [done|]. split; [done|]. by intros lo hi [].
  - rewrite getAverageRating_cons. eexists. split; [reflexivity|]. split; [done|].
    intros lo hi _ _ _. apply average_between.
Qed.

End RatingFacts.

(** ** Ratings from the form to the average ([client/components], [server/routes.ts]) *)

Section ReviewFacts.

Import QArith_base.

Lemma createReview_posts form body :
  createReview form = Post body ↔
  body = form ∧ (1 <= vf_rating form)%Q ∧ (vf_rating form <= 5)%Q.
Proof.
  unfold createReview. change (inject_Z 1) with 1%Q. change (inject_Z 5) with 5%Q.
  destruct (Qlt_bool (vf_rating form) 1%Q) eqn:Hlo; cbn [orb].
  { split; [done|]. intros (_ & Hle & _). apply Qlt_bool_false in Hle. congruence. }
  destruct (Qlt_bool 5%Q (vf_rating form)) eqn:Hhi.
  { split; [done|]. intros (_ & _ & Hle). apply Qlt_bool_false in Hle. congruence. }
  apply Qlt_bool_false in Hlo, Hhi. split.
  - by intros [= <-].
  - by intros (-> & _).
Qed.

(** X19.  Form and route together.  When every review of a subject is one
    the review form has posted (the form posts a rating from 1 to 5 only,
    and posts it as it is), the average the route returns is itself between
    1 and 5. *)
Theorem average_of_posted_ratings_is_a_rating (forms : list ReviewForm) :
  forms ≠ [] →
  (∀ form, form ∈ forms → createReview form = Post form) →
  ∃ average,
    getAverageRating (vf_rating <$> forms) = Some average ∧
    (1 <= average)%Q ∧ (average <= 5)%Q.
Proof.
  intros Hsome Hposted. destruct forms as [|first others]; [done|].
  rewrite fmap_cons, getAverageRating_cons. eexists. split; [reflexivity|].
  apply average_between. rewrite <- fmap_cons.
  intros r (form & -> & Hform)%list_elem_of_fmap.
  specialize (Hposted form Hform). by apply createReview_posts in Hposted as (_ & ? & ?).
Qed.

Lemma average_of_posted_ratings_is_a_rating_witness :
  ∃ average,
    getAverageRating [inject_Z 4; inject_Z 5] = Some average ∧
    (1 <= average)%Q ∧ (average <= 5)%Q.
Proof.
  apply (average_of_posted_ratings_is_a_rating
           [mkReviewForm 7 (inject_Z 4) "kind"; mkReviewForm 7 (inject_Z 5) ""]).
  - discriminate.
  - intros form Hform. repeat (apply elem_of_cons in Hform as [-> | Hform]; [reflexivity|]).
    by apply elem_of_nil in Hform.
Defined.

End ReviewFacts.

(** ** More on deletion ([server/routes.ts]) *)

Lemma assertAuthor_reads F oid user w : (Requesting.assertAuthor F oid user w).2 = w.
Proof.
  unfold_stores. unfold_monad. destruct (F _); [done|].
  destruct (requests w !! oid) as [r|]; [|done]. by destruct (decide _).
Qed.

(** X20.  [deleteRequest] touches nothing but what belongs to the Request,
    for every caller and every fault plan: the other Requests, the Offers on
    other Requests and the expiration records of other Requests are as they
    were, no Offer and no record is created or changed, and Listings, their
    records, Claims, tags and ids are as they were. *)
Theorem deleteRequest_touches_its_own_only F user oid w :
  let w' := run (deleteRequest F user oid) w in
  (∀ i, i ≠ oid → requests w' !! i = requests w !! i) ∧
  (∀ k o, offers w !! k = Some o → o_item o ≠ oid → offers w' !! k = Some o) ∧
  (∀ rid d, request_expirations w !! rid = Some d → e_item d ≠ oid →
            request_expirations w' !! rid = Some d) ∧
  (∀ k o, offers w' !! k = Some o → offers w !! k = Some o) ∧
  (∀ rid d, request_expirations w' !! rid = Some d → request_expirations w !! rid = Some d) ∧
  listings w' = listings w ∧ listing_expirations w' = listing_expirations w ∧
  claims w' = claims w ∧ tagged w' = tagged w ∧ next_oid w' = next_oid w.
Proof.
  cbv zeta.
  destruct (Requesting.assertAuthor F oid user w) as [[[]|e] w0] eqn:Hassert.
  2:{ assert (w0 = w) as -> by (by rewrite <- (assertAuthor_reads F oid user w), Hassert).
      assert (run (deleteRequest F user oid) w = w) as ->.
      { unfold run, deleteRequest, bind at 1. by rewrite Hassert. }
      repeat split; done. }
  assert (w0 = w) as -> by (by rewrite <- (assertAuthor_reads F oid user w), Hassert).
  assert (∃ recs, try_catch
         (RequestExp <- Request_Expiring.getExpireByItem F oid;;
          match RequestExp with
          | Some (rid, _) => Request_Expiring.delete F rid
          | None => ret tt
          end)
         (λ error, ret tt) w
       = (Ok tt, with_request_expirations (λ _, recs) w) ∧
       (∀ rid d, request_expirations w !! rid = Some d → e_item d ≠ oid → recs !! rid = Some d) ∧
       (∀ rid d, recs !! rid = Some d → request_expirations w !! rid = Some d))
    as (recs & Hclean & Hkept & Hold).
  { unfold_stores. unfold_monad. cbn.
    destruct (F (ExpGetByItem _ _)); [exists (request_expirations w); by destruct w|].
    destruct (head _) as [[rid0 d0]|] eqn:Hhead; [|exists (request_expirations w); by destruct w].
    destruct (F (ExpDelete _ _)); [exists (request_expirations w); by destruct w|].
    exists (delete rid0 (request_expirations w)). split; [done|].
    apply records_of_item_some in Hhead as [Hd0 Hitem0]. split.
    - intros rid d Hd Hne. rewrite lookup_delete_ne; [done|]. intros <-. congruence.
    - intros rid d. by intros [_ ?]%lookup_delete_Some. }
  unfold run. rewrite (deleteRequest_steps F user oid w _ Hassert Hclean).
  clear Hassert Hclean. unfold_stores. unfold_monad.
  destruct (F (OfferRemoveAll oid)); cbn; [repeat split; done|].
  destruct (F (ItemDelete KRequest oid)); cbn.
  - repeat split; try done.
    + intros k o Ho Hne. by apply map_lookup_filter_Some.
    + intros k o. by intros [? _]%map_lookup_filter_Some.
  - repeat split; try done.
    + intros i Hne. by rewrite lookup_delete_ne.
    + intros k o Ho Hne. by apply map_lookup_filter_Some.
    + intros k o. by intros [? _]%map_lookup_filter_Some.
Qed.

(** ** From creation to expiry ([server/routes.ts], [api/index.ts]) *)

Lemma records_of_item_absent item m :
  (∀ rid d, m !! rid = Some d → e_item d ≠ item) → head (records_of_item item m) = None.
Proof.
  intros Hnone. destruct (head _) as [[rid d]|] eqn:Hhead; [|done].
  apply records_of_item_some in Hhead as [Hd Hitem]. by destruct (Hnone rid d Hd).
Qed.

Lemma addListing_run user name meetup_location image quantity expireDate description tags w :
  (∀ rid d, listing_expirations w !! rid = Some d → e_item d ≠ next_oid w) →
  let doc := mkListing user name meetup_location image quantity description tags false in
  let w1 := run (addListing no_faults user name meetup_location image quantity expireDate
                   description tags) w in
  listings w1 = <[next_oid w := doc]> (listings w) ∧
  listing_expirations w1
  = <[S (next_oid w) := mkExpire (next_oid w) expireDate]> (listing_expirations w).
Proof.
  intros Hnone. cbv zeta. unfold run, addListing. unfold_stores. unfold_monad. cbn.
  rewrite (records_of_item_absent _ _ Hnone). cbn.
  rewrite tag_loop_ok by (apply Forall_forall; done). done.
Qed.

Lemma addRequest_run user name quantity needBy image description w :
  (∀ rid d, request_expirations w !! rid = Some d → e_item d ≠ next_oid w) →
  let doc := mkRequest user name quantity image description false in
  let w1 := run (addRequest no_faults user name quantity needBy image description) w in
  requests w1 = <[next_oid w := doc]> (requests w) ∧
  request_expirations w1
  = <[S (next_oid w) := mkExpire (next_oid w) needBy]> (request_expirations w).
Proof.
  intros Hnone. cbv zeta. unfold run, addRequest. unfold_stores. unfold_monad. cbn.
  by rewrite (records_of_item_absent _ _ Hnone).
Qed.

Lemma tick_hides_listing w rid rec l :
  listing_expirations w !! rid = Some rec →
  e_expireAt rec ≤ clock w →
  listings w !! e_item rec = Some l →
  listings (run (cron_tick no_faults) w) !! e_item rec = Some (hide_listing l).
Proof.
  intros Hrec Hexp Hl. rewrite swept_listings_lookup. unfold swept_listings. cbn.
  unfold listing_turns.
  eapply (sweep_all_hidden_after l_hidden hide_listing hide_listing_hidden hide_listing_id);
    [by apply elem_of_records_expired | done | done | exact Hl].
Qed.

Lemma tick_hides_request w rid rec r :
  request_expirations w !! rid = Some rec →
  e_expireAt rec ≤ clock w →
  requests w !! e_item rec = Some r →
  requests (run (cron_tick no_faults) w) !! e_item rec = Some (hide_request r).
Proof.
  intros Hrec Hexp Hr. rewrite swept_requests_lookup. unfold swept_requests. cbn.
  unfold request_turns.
  eapply (sweep_all_hidden_after r_hidden hide_request hide_request_hidden hide_request_id);
    [by apply elem_of_records_expired | done | done | exact Hr].
Qed.

(** X21.  From creation to expiry, with no call refused.  An Item created
    with a date, in a store that holds no record for its id yet, is visible
    after every tick that runs while the clock is before the date, and is
    left with [hidden = true] (its other fields as created) by a tick that
    runs once the clock has reached the date.  Both kinds. *)
Theorem created_items_live_until_their_date :
  (∀ user name meetup_location image quantity expireDate description tags w now,
     (∀ rid d, listing_expirations w !! rid = Some d → e_item d ≠ next_oid w) →
     let doc := mkListing user name meetup_location image quantity description tags false in
     let w1 := set_clock now (run (addListing no_faults user name meetup_location image quantity
                                     expireDate description tags) w) in
     (now < expireDate →
        listings (run (cron_tick no_faults) w1) !! next_oid w = Some doc) ∧
     (expireDate ≤ now →
        listings (run (cron_tick no_faults) w1) !! next_oid w
          = Some (mkListing user name meetup_location image quantity description tags true))) ∧
  (∀ user name quantity needBy image description w now,
     (∀ rid d, request_expirations w !! rid = Some d → e_item d ≠ next_oid w) →
     let doc := mkRequest user name quantity image description false in
     let w1 := set_clock now (run (addRequest no_faults user name quantity needBy image
                                     description) w) in
     (now < needBy →
        requests (run (cron_tick no_faults) w1) !! next_oid w = Some doc) ∧
     (needBy ≤ now →
        requests (run (cron_tick no_faults) w1) !! next_oid w
          = Some (mkRequest user name quantity image description true))).
Proof.
  split.
  - intros * Hnone. cbv zeta.
    destruct (addListing_run user name meetup_location image quantity expireDate description
                tags w Hnone) as [Hitems Hrecs].
    split.
    + intros Hlater. rewrite tick_spares_listing.
      * cbn. rewrite Hitems. apply lookup_insert_eq.
      * cbn. rewrite Hrecs. intros rid rec [[_ <-] | [_ Hold]]%lookup_insert_Some Hitem.
        -- done.
        -- by destruct (Hnone rid rec Hold).
    + intros Hpast.
      apply (tick_hides_listing _ (S (next_oid w)) (mkExpire (next_oid w) expireDate)
               (mkListing user name meetup_location image quantity description tags false)).
      * cbn. rewrite Hrecs. apply lookup_insert_eq.
      * done.
      * cbn. rewrite Hitems. apply lookup_insert_eq.
  - intros * Hnone. cbv zeta.
    destruct (addRequest_run user name quantity needBy image description w Hnone)
      as [Hitems Hrecs].
    split.
    + intros Hlater. rewrite tick_spares_request.
      * cbn. rewrite Hitems. apply lookup_insert_eq.
      * cbn. rewrite Hrecs. intros rid rec [[_ <-] | [_ Hold]]%lookup_insert_Some Hitem.
        -- done.
        -- by destruct (Hnone rid rec Hold).
    + intros Hpast.
      apply (tick_hides_request _ (S (next_oid w)) (mkExpire (next_oid w) needBy)
               (mkRequest user name quantity image description false)).
      * cbn. rewrite Hrecs. apply lookup_insert_eq.
      * done.
      * cbn. rewrite Hitems. apply lookup_insert_eq.
Qed.

Lemma created_items_live_until_their_date_witness :
  listings (run (cron_tick no_faults)
              (set_clock 99 (run (addListing no_faults 7 "bread" "lobby" "img" 3 100 "fresh"
                                    ["vegan"]) bread_world))) !! 0%nat
    = Some (mkListing 7 "bread" "lobby" "img" 3 "fresh" ["vegan"] false) ∧
  listings (run (cron_tick no_faults)
              (set_clock 100 (run (addListing no_faults 7 "bread" "lobby" "img" 3 100 "fresh"
                                     ["vegan"]) bread_world))) !! 0%nat
    = Some (mkListing 7 "bread" "lobby" "img" 3 "fresh" ["vegan"] true).
Proof.
  split.
  - apply (proj1 created_items_live_until_their_date 7%nat "bread" "lobby" "img" 3 100 "fresh"
             ["vegan"] bread_world 99).
    + intros rid d Hd. vm_compute in Hd. discriminate.
    + reflexivity.
  - apply (proj1 created_items_live_until_their_date 7%nat "bread" "lobby" "img" 3 100 "fresh"
             ["vegan"] bread_world 100).
    + intros rid d Hd. vm_compute in Hd. discriminate.
    + vm_compute. discriminate.
Defined.

(** ** Reachable states *)

(** X22.  One expiration record per item is an invariant of the system: it
    holds in every state reached from the empty database by the creation and
    deletion routes, claims, acceptances, offers and ticks of the sweep,
    under any fault plans, given that the expiration store updates the
    record of an item that has one. *)
Theorem reachable_states_have_one_record_per_item w :
  reachable w →
  one_record_per_item (listing_expirations w) ∧ one_record_per_item (request_expirations w).
Proof. intros Hw. by apply reachable_records_unique. Qed.

Lemma reachable_states_have_one_record_per_item_witness :
  one_record_per_item (listing_expirations hidden_bread_world) ∧
  one_record_per_item (request_expirations hidden_bread_world).
Proof.
  apply reachable_states_have_one_record_per_item. unfold hidden_bread_world.
  do 2 apply reachable_core. apply reachable_init.
Defined.
